(** * WasmWorker: the message bridge between a controller and a WebAssembly worker

    A shallow embedding of [packages/sdk/src/types.ts], [packages/sdk/src/bridge.ts]
    (the Controller, class [WasmWorker]) and [packages/sdk/src/worker/runtime.ts]
    (the Runtime), followed by the properties of the bridge protocol. *)

From stdpp Require Import gmap strings list fin_maps.
From Stdlib Require Import ZArith.

Open Scope string_scope.
Open Scope list_scope.

Set Warnings "-register-all".

(** ** Values carried by messages ([unknown] in the source)

    A payload is data that crossed the channel, so it is a structured-clonable
    value.  An object is the list of its own enumerable properties, in the
    order in which the properties were written into it; for an object that the
    channel rebuilt on the receiving side this is also the order in which
    [Object.keys] and [Object.values] enumerate it. *)

Inductive Value :=
  | VUndefined
  | VNull
  | VBool (b : bool)
  | VNum (n : Z)
  | VStr (s : string)
  | VArr (elems : list Value)
  | VObj (props : list (string * Value)).

(** JavaScript truthiness, as used by [msg.init || {}]. *)
Definition truthy (v : Value) : bool :=
  match v with
  | VUndefined | VNull => false
  | VBool b => b
  | VNum n => negb (n =? 0)%Z
  | VStr s => negb (String.eqb s EmptyString)
  | VArr _ | VObj _ => true
  end.

(** The one-character string made of a double quote. *)
Definition dquote : string := String (Ascii.ascii_of_nat 34) EmptyString.

(** [Object.values(o)] and [Object.keys(o)] on a property list. *)
Definition Object_values (props : list (string * Value)) : list Value := props.*2.
Definition Object_keys {A} (props : list (string * A)) : list string := props.*1.

(** ** types.ts *)

Inductive ErrorCode :=
  | MODULE_FETCH_FAILED
  | WASM_INIT_FAILED
  | FN_NOT_FOUND
  | INVALID_PAYLOAD
  | WASM_TRAP
  | NOT_INITIALIZED
  | UNKNOWN_ERROR.

(** Messages sent TO the worker ([WorkerRequest]).  An optional field that is
    absent is [VUndefined]. *)
Inductive WorkerRequest :=
  | InitMsg (id : string) (moduleUrl : string) (init : Value)
  | CallMsg (id : string) (fn : string) (payload : Value)
  | StreamOpenMsg (id : string) (fn : string) (payload : Value).

(** Messages received FROM the worker ([WorkerResponse]). *)
Inductive WorkerResponse :=
  | ResultMsg (id : string) (value : Value)
  | ErrorMsg (id : string) (code : ErrorCode) (message : string) (details : Value)
  | StreamChunkMsg (id : string) (value : Value)
  | StreamCloseMsg (id : string)
  | ReadyMsg.

Definition request_id (m : WorkerRequest) : string :=
  match m with
  | InitMsg id _ _ | CallMsg id _ _ | StreamOpenMsg id _ _ => id
  end.

Definition response_id (m : WorkerResponse) : option string :=
  match m with
  | ResultMsg id _ | ErrorMsg id _ _ _ | StreamChunkMsg id _ | StreamCloseMsg id => Some id
  | ReadyMsg => None
  end.

(** A value raised by [throw] (or a rejected promise that is awaited): either
    an [Error] instance with its [message], or some other value, kept as the
    string that [String(error)] gives for it. *)
Inductive Thrown :=
  | ThrowError (message : string)
  | ThrowOther (rendering : string).

(** [error instanceof Error ? error.message : String(error)] *)
Definition errorMsg_of (error : Thrown) : string :=
  match error with
  | ThrowError message => message
  | ThrowOther rendering => rendering
  end.

(** * The Runtime: worker/runtime.ts *)

Module Runtime.

(** The result of running JavaScript that may throw. *)
Inductive Outcome (A : Type) :=
  | Returns (a : A)
  | Throws (t : Thrown).
Arguments Returns {A} a.
Arguments Throws {A} t.

(** An exported WebAssembly function: called with positional arguments, it
    returns a value or raises (a trap is a [WebAssembly.RuntimeError]). *)
Definition WasmFunction := list Value -> Outcome Value.

Record Memory := { pages : nat }.

Inductive ExportValue :=
  | ExFunction (f : WasmFunction)
  | ExMemory (m : Memory)
  | ExOther.

(** [instance.exports], a null-prototype object: export names in key order. *)
Record Instance := { exports : list (string * ExportValue) }.

(** [exports[name]] *)
Fixpoint export_get (es : list (string * ExportValue)) (name : string)
  : option ExportValue :=
  match es with
  | [] => None
  | (k, e) :: rest => if String.eqb k name then Some e else export_get rest name
  end.

(** [typeof x === 'function'] for the result of an export lookup. *)
Definition is_function (x : option ExportValue) : bool :=
  match x with
  | Some (ExFunction _) => true
  | _ => false
  end.

Record RuntimeState := {
  instance : option Instance;
  memory : option Memory;
  initialized : bool;
}.

(** The isolated context: the global [state], the messages posted back to
    the main thread, and the record of the exported functions invoked so
    far with their arguments. *)
Record Context := {
  state : RuntimeState;
  outbox : list WorkerResponse;
  invoked : list (string * list Value);
}.

(** A computation of the worker: it reads and writes the context and either
    returns or throws.  What was done before a [throw] stays done. *)
Definition M (A : Type) := Context -> Outcome A * Context.

Definition ret {A} (a : A) : M A := fun c => (Returns a, c).
Definition bind {A B} (m : M A) (k : A -> M B) : M B :=
  fun c => match m c with
           | (Returns a, c') => k a c'
           | (Throws t, c') => (Throws t, c')
           end.
Definition throw {A} (t : Thrown) : M A := fun c => (Throws t, c).
Definition try_catch {A} (body : M A) (handler : Thrown -> M A) : M A :=
  fun c => match body c with
           | (Returns a, c') => (Returns a, c')
           | (Throws t, c') => handler t c'
           end.

#[local] Instance M_ret : MRet M := @ret.
#[local] Instance M_bind : MBind M := fun A B k m => bind m k.

(** [await p] for a promise that the platform settles: a fulfilled promise
    gives its value, a rejected one throws at the [await]. *)
Definition await {A} (p : Outcome A) : M A := fun c => (p, c).

Definition get_state : M RuntimeState := fun c => (Returns (state c), c).
Definition set_state (s : RuntimeState) : M unit :=
  fun c => (Returns tt, {| state := s; outbox := outbox c; invoked := invoked c |}).

Definition postMessage (m : WorkerResponse) : M unit :=
  fun c => (Returns tt,
            {| state := state c; outbox := outbox c ++ [m]; invoked := invoked c |}).

(** Calling the export [name] with [args]. *)
Definition invoke (name : string) (f : WasmFunction) (args : list Value) : M Value :=
  fun c => (f args,
            {| state := state c; outbox := outbox c;
               invoked := invoked c ++ [(name, args)] |}).

Definition sendResult (id : string) (value : Value) : M unit :=
  postMessage (ResultMsg id value).

Definition sendError (id : string) (code : ErrorCode) (message : string)
    (details : Value) : M unit :=
  postMessage (ErrorMsg id code message details).

(** What the platform does for [handleInit]: [fetch], the body of the
    response, [WebAssembly.compile] and [WebAssembly.instantiate]. *)
Definition ArrayBuffer := list Z.
Record WasmModule := { code : ArrayBuffer }.

Record Response := {
  ok : bool;
  status : Z;
  statusText : string;
  arrayBuffer : Outcome ArrayBuffer;
}.

Record Platform := {
  fetch : string -> Outcome Response;
  compile : ArrayBuffer -> Outcome WasmModule;
  instantiate : WasmModule -> Value -> Outcome Instance;
}.

(** [state.instance.exports.memory instanceof WebAssembly.Memory] *)
Definition memory_export (inst : Instance) : option Memory :=
  match export_get (exports inst) "memory" with
  | Some (ExMemory m) => Some m
  | _ => None
  end.

(** [handleInit].  Its writes to [state] and its [postMessage] all happen
    in the last synchronous stretch of the function, after the last
    [await], so one run is one transition of the context. *)
Definition handleInit (P : Platform) (id moduleUrl : string) (init : Value) : M unit :=
  try_catch
    (response ← await (fetch P moduleUrl);
     if negb (ok response) then
       sendError id MODULE_FETCH_FAILED
         ("Failed to fetch module: " +:+ statusText response)
         (VObj [("status", VNum (status response)); ("url", VStr moduleUrl)])
     else
       wasmBuffer ← await (arrayBuffer response);
       wasmModule ← await (compile P wasmBuffer);
       let imports := VObj [("env", if truthy init then init else VObj [])] in
       inst ← await (instantiate P wasmModule imports);
       s ← get_state;
       set_state {| instance := Some inst; memory := memory s;
                    initialized := initialized s |};;
       (match memory_export inst with
        | Some m =>
            s ← get_state;
            set_state {| instance := instance s; memory := Some m;
                         initialized := initialized s |}
        | None => ret tt
        end);;
       s ← get_state;
       set_state {| instance := instance s; memory := memory s;
                    initialized := true |};;
       sendResult id (VObj [("initialized", VBool true)]))
    (fun error =>
       let errorMsg := errorMsg_of error in
       sendError id WASM_INIT_FAILED
         ("Failed to initialize WASM module: " +:+ errorMsg)
         (VObj [("error", VStr errorMsg)])).

(** [handleCall] *)
Definition handleCall (id fn : string) (payload : Value) : M unit :=
  s ← get_state;
  match initialized s, instance s with
  | true, Some inst =>
      try_catch
        (match export_get (exports inst) fn with
         | Some (ExFunction f) =>
             result ←
               (match payload with
                | VNull | VUndefined => invoke fn f []
                | VObj props =>
                    let args := Object_values props in
                    invoke fn f args
                | VArr elems => invoke fn f elems
                | _ => invoke fn f [payload]
                end);
             sendResult id result
         | _ =>
             sendError id FN_NOT_FOUND
               ("Function " +:+ dquote +:+ fn +:+ dquote +:+ " not found in WASM module")
               (VObj [("availableFunctions",
                       VArr (VStr <$>
                             filter (fun k => is_function (export_get (exports inst) k) = true)
                                    (Object_keys (exports inst))))])
         end)
        (fun error =>
           let errorMsg := errorMsg_of error in
           sendError id WASM_TRAP
             ("WASM execution error: " +:+ errorMsg)
             (VObj [("function", VStr fn); ("error", VStr errorMsg)]))
  | _, _ =>
      sendError id NOT_INITIALIZED "Worker not initialized with WASM module" VUndefined
  end.

(** [handleStreamOpen] *)
Definition handleStreamOpen (id fn : string) (payload : Value) : M unit :=
  sendError id UNKNOWN_ERROR "Streaming not yet implemented" VUndefined.

(** The [message] listener of the worker. *)
Definition onmessage (P : Platform) (msg : WorkerRequest) : M unit :=
  match msg with
  | InitMsg id moduleUrl init => handleInit P id moduleUrl init
  | CallMsg id fn payload => handleCall id fn payload
  | StreamOpenMsg id fn payload => handleStreamOpen id fn payload
  end.

(** The context once the script has been evaluated: the [ready] signal is
    the only message posted. *)
Definition startup : Context :=
  {| state := {| instance := None; memory := None; initialized := false |};
     outbox := [ReadyMsg];
     invoked := [] |}.

(** ** Notions used in the statements about the Runtime *)

(** The argument adaptation policy, in the words of the specification: no
    argument for an absent or null payload, the values of a structured object
    in order, the elements of a sequence in order, a scalar alone. *)
Definition arguments_of (payload : Value) : list Value :=
  match payload with
  | VUndefined | VNull => []
  | VObj props => props.*2
  | VArr elems => elems
  | VBool _ | VNum _ | VStr _ => [payload]
  end.

(** The names that [handleCall] lists under [availableFunctions]. *)
Definition callable_names (inst : Instance) : list string :=
  filter (fun k => is_function (export_get (exports inst) k) = true)
         (Object_keys (exports inst)).

(** The context after one more message, and after one more invocation. *)
Definition posting (m : WorkerResponse) (c : Context) : Context :=
  {| state := state c; outbox := outbox c ++ [m]; invoked := invoked c |}.
Definition invoking (name : string) (args : list Value) (c : Context) : Context :=
  {| state := state c; outbox := outbox c; invoked := invoked c ++ [(name, args)] |}.

(** The answer to a call whose function raised [t]. *)
Definition trap_message (id fn : string) (t : Thrown) : WorkerResponse :=
  ErrorMsg id WASM_TRAP ("WASM execution error: " +:+ errorMsg_of t)
    (VObj [("function", VStr fn); ("error", VStr (errorMsg_of t))]).

End Runtime.

(** * The Controller: bridge.ts *)

Module LoadOptions.
Record t := { moduleUrl : string; init : Value }.
End LoadOptions.

Module CallOptions.
(** A [Transferable] is a handle on a buffer whose ownership moves. *)
Definition Transferable := nat.
Record t := { transfer : option (list Transferable) }.
End CallOptions.

Module Bridge.

(** ** Error objects *)

Record JsError := {
  name : string;
  message : string;
  code : option ErrorCode;
  details : Value;
}.

(** [new Error(message)] *)
Definition Error (message : string) : JsError :=
  {| name := "Error"; message := message; code := None; details := VUndefined |}.

(** [createError] *)
Definition createError (code : ErrorCode) (message : string) (details : Value)
  : JsError :=
  {| name := "WasmWorkerError"; message := message; code := Some code;
     details := details |}.

(** ** Promises and the callbacks that settle them

    A promise is a cell of the promise store, named by its index.  The
    resolving functions of a promise settle it the first time one of them is
    called and do nothing afterwards. *)

Inductive Settlement :=
  | Pending
  | Fulfilled (v : Value)
  | Rejected (e : JsError).

(** The functions stored in the [resolve] fields. *)
Inductive ResolveFn :=
  | ResolveNoop                 (* [() => {}] *)
  | ResolvePromise (p : nat)    (* the [resolve] of promise [p] *)
  | ResolveInit (p : nat).      (* [() => { this.initialized = true; resolve(); }] *)

(** The functions stored in the [reject] fields. *)
Inductive RejectFn :=
  | RejectNoop                  (* [() => {}] *)
  | RejectPromise (p : nat).    (* the [reject] of promise [p] *)

(** A function is an object, so it is truthy. *)
Definition fn_truthy (f : ResolveFn) : bool := true.

Module PendingRequest.
Record t := { resolve : ResolveFn; reject : RejectFn }.
End PendingRequest.

Module StreamingRequest.
Record t := {
  queue : list Value;
  resolve : ResolveFn;
  reject : RejectFn;
  done : bool;
}.
End StreamingRequest.

#[export] Instance StreamingRequest_inhabited : Inhabited StreamingRequest.t :=
  populate {| StreamingRequest.queue := []; StreamingRequest.resolve := ResolveNoop;
              StreamingRequest.reject := RejectNoop; StreamingRequest.done := false |}.

(** [IteratorResult]: the object literal [{ value, done }]. *)
Definition IteratorResult (value : Value) (done : bool) : Value :=
  VObj [("value", value); ("done", VBool done)].

(** ** The async generator made by [stream]

    The body of an async generator runs only while a [next()] request is
    being served.  It is suspended before its first statement, at a [yield],
    or at the [await] of the loop; in the last case a request is being
    served and [queued] more are waiting behind it. *)

Inductive GenState :=
  | SuspendedStart
  | AwaitingChunk (id : string) (request : nat) (p : nat) (queued : nat)
  | SuspendedYield (id : string) (request : nat)
  | Completed.

(** What the consumer gets as the answer to one [next()]. *)
Inductive Observation :=
  | Yielded (v : Value)     (* [{ value: v, done: false }] *)
  | Finished                (* [{ value: undefined, done: true }] *)
  | Failed (e : JsError).   (* the promise of [next()] is rejected *)

Record Generator := {
  gen_fn : string;
  gen_payload : Value;
  gen_state : GenState;
  observed : list Observation;
}.

(** ** The state *)

(** The [Worker] object, with the [error] listener that [init] installs
    (the [message] listener is [handleMessage]). *)
Record Worker := { onerror : RejectFn }.

Inductive Registry := PendingRegistry | StreamingRegistry.

(** What the Controller does to the outside, in the order it does it. *)
Inductive Effect :=
  | Registered (r : Registry) (id : string)    (* [Map.set] on a registry *)
  | Posted (m : WorkerRequest) (transfer : list CallOptions.Transferable)
  | CalledResolve (f : ResolveFn) (v : Value)
  | CalledReject (f : RejectFn) (e : JsError)
  | Terminated.                                 (* [worker.terminate()] *)

(** The four fields of the [WasmWorker] instance, then its surroundings:
    the [StreamingRequest] objects (a registry entry and the generator that
    made it hold the same reference), the promise store, the generators
    made by [stream], the ids that [generateId] has handed out, and the
    effects so far. *)
Record World := {
  worker : option Worker;
  pendingRequests : gmap string PendingRequest.t;
  streamingRequests : gmap string nat;
  initialized : bool;
  heap : list StreamingRequest.t;
  promises : list Settlement;
  generators : list Generator;
  generated : list string;
  effects : list Effect;
}.

Definition initial : World :=
  {| worker := None; pendingRequests := ∅; streamingRequests := ∅;
     initialized := false; heap := []; promises := []; generators := [];
     generated := []; effects := [] |}.

Definition set_worker (x : option Worker) (w : World) : World :=
  {| worker := x; pendingRequests := pendingRequests w;
     streamingRequests := streamingRequests w; initialized := initialized w;
     heap := heap w; promises := promises w; generators := generators w;
     generated := generated w; effects := effects w |}.
Definition set_pendingRequests (x : gmap string PendingRequest.t) (w : World) : World :=
  {| worker := worker w; pendingRequests := x;
     streamingRequests := streamingRequests w; initialized := initialized w;
     heap := heap w; promises := promises w; generators := generators w;
     generated := generated w; effects := effects w |}.
Definition set_streamingRequests (x : gmap string nat) (w : World) : World :=
  {| worker := worker w; pendingRequests := pendingRequests w;
     streamingRequests := x; initialized := initialized w;
     heap := heap w; promises := promises w; generators := generators w;
     generated := generated w; effects := effects w |}.
Definition set_initialized (x : bool) (w : World) : World :=
  {| worker := worker w; pendingRequests := pendingRequests w;
     streamingRequests := streamingRequests w; initialized := x;
     heap := heap w; promises := promises w; generators := generators w;
     generated := generated w; effects := effects w |}.
Definition set_heap (x : list StreamingRequest.t) (w : World) : World :=
  {| worker := worker w; pendingRequests := pendingRequests w;
     streamingRequests := streamingRequests w; initialized := initialized w;
     heap := x; promises := promises w; generators := generators w;
     generated := generated w; effects := effects w |}.
Definition set_promises (x : list Settlement) (w : World) : World :=
  {| worker := worker w; pendingRequests := pendingRequests w;
     streamingRequests := streamingRequests w; initialized := initialized w;
     heap := heap w; promises := x; generators := generators w;
     generated := generated w; effects := effects w |}.
Definition set_generators (x : list Generator) (w : World) : World :=
  {| worker := worker w; pendingRequests := pendingRequests w;
     streamingRequests := streamingRequests w; initialized := initialized w;
     heap := heap w; promises := promises w; generators := x;
     generated := generated w; effects := effects w |}.
Definition set_generated (x : list string) (w : World) : World :=
  {| worker := worker w; pendingRequests := pendingRequests w;
     streamingRequests := streamingRequests w; initialized := initialized w;
     heap := heap w; promises := promises w; generators := generators w;
     generated := x; effects := effects w |}.
Definition set_effects (x : list Effect) (w : World) : World :=
  {| worker := worker w; pendingRequests := pendingRequests w;
     streamingRequests := streamingRequests w; initialized := initialized w;
     heap := heap w; promises := promises w; generators := generators w;
     generated := generated w; effects := x |}.

Definition emit (e : Effect) (w : World) : World :=
  set_effects (effects w ++ [e]) w.

(** ** Primitive steps *)

(** [generateId()]: the identifier comes from [crypto.randomUUID()] (or the
    clock and [Math.random()]); [fresh] is the string it returns this time. *)
Definition generateId (fresh : string) (w : World) : string * World :=
  (fresh, set_generated (generated w ++ [fresh]) w).

(** [new Promise(...)]: a new pending cell. *)
Definition newPromise (w : World) : nat * World :=
  (length (promises w), set_promises (promises w ++ [Pending]) w).

(** Settling promise [p]: only a pending promise changes. *)
Definition settle (p : nat) (s : Settlement) (w : World) : World :=
  match promises w !! p with
  | Some Pending => set_promises (<[p := s]> (promises w)) w
  | _ => w
  end.

(** Calling a stored [resolve] with [v]. *)
Definition callResolve (f : ResolveFn) (v : Value) (w : World) : World :=
  let w := emit (CalledResolve f v) w in
  match f with
  | ResolveNoop => w
  | ResolvePromise p => settle p (Fulfilled v) w
  | ResolveInit p => settle p (Fulfilled VUndefined) (set_initialized true w)
  end.

(** Calling a stored [reject] with [e]. *)
Definition callReject (f : RejectFn) (e : JsError) (w : World) : World :=
  let w := emit (CalledReject f e) w in
  match f with
  | RejectNoop => w
  | RejectPromise p => settle p (Rejected e) w
  end.

(** [this.worker.postMessage(m, transfer)] *)
Definition postMessage (m : WorkerRequest) (transfer : list CallOptions.Transferable)
    (w : World) : World :=
  emit (Posted m transfer) w.

(** [this.pendingRequests.set(id, r)] and [.delete(id)] *)
Definition pendingSet (id : string) (r : PendingRequest.t) (w : World) : World :=
  emit (Registered PendingRegistry id)
       (set_pendingRequests (<[id := r]> (pendingRequests w)) w).
Definition pendingDelete (id : string) (w : World) : World :=
  set_pendingRequests (delete id (pendingRequests w)) w.

(** [this.streamingRequests.set(id, request)] and [.delete(id)] *)
Definition streamingSet (id : string) (request : nat) (w : World) : World :=
  emit (Registered StreamingRegistry id)
       (set_streamingRequests (<[id := request]> (streamingRequests w)) w).
Definition streamingDelete (id : string) (w : World) : World :=
  set_streamingRequests (delete id (streamingRequests w)) w.

(** Reading and updating the [StreamingRequest] object behind a reference. *)
Definition deref (request : nat) (w : World) : StreamingRequest.t :=
  heap w !!! request.
Definition assign (request : nat) (r : StreamingRequest.t) (w : World) : World :=
  set_heap (<[request := r]> (heap w)) w.
Definition alloc (r : StreamingRequest.t) (w : World) : nat * World :=
  (length (heap w), set_heap (heap w ++ [r]) w).

(** [request.queue.push(value)] and [request.queue.shift()] *)
Definition push (request : nat) (value : Value) (w : World) : World :=
  let r := deref request w in
  assign request
    {| StreamingRequest.queue := StreamingRequest.queue r ++ [value];
       StreamingRequest.resolve := StreamingRequest.resolve r;
       StreamingRequest.reject := StreamingRequest.reject r;
       StreamingRequest.done := StreamingRequest.done r |} w.

Definition shift (request : nat) (w : World) : Value * World :=
  let r := deref request w in
  match StreamingRequest.queue r with
  | [] => (VUndefined, w)
  | x :: rest =>
      (x, assign request
            {| StreamingRequest.queue := rest;
               StreamingRequest.resolve := StreamingRequest.resolve r;
               StreamingRequest.reject := StreamingRequest.reject r;
               StreamingRequest.done := StreamingRequest.done r |} w)
  end.

(** [request.done = true] *)
Definition markDone (request : nat) (w : World) : World :=
  let r := deref request w in
  assign request
    {| StreamingRequest.queue := StreamingRequest.queue r;
       StreamingRequest.resolve := StreamingRequest.resolve r;
       StreamingRequest.reject := StreamingRequest.reject r;
       StreamingRequest.done := true |} w.

(** [request.resolve = resolve; request.reject = reject], the executor of
    the promise awaited in the loop of [stream]. *)
Definition setWaiter (request : nat) (p : nat) (w : World) : World :=
  let r := deref request w in
  assign request
    {| StreamingRequest.queue := StreamingRequest.queue r;
       StreamingRequest.resolve := ResolvePromise p;
       StreamingRequest.reject := RejectPromise p;
       StreamingRequest.done := StreamingRequest.done r |} w.

(** ** The methods of [WasmWorker] *)

(** [init].  [spawn_failure] is what [new URL] or [new Worker] threw, when
    one of them did.  The result is the promise that [init] returns. *)
Definition init (spawn_failure : option Thrown) (options : LoadOptions.t)
    (fresh : string) (w : World) : nat * World :=
  let '(p, w) := newPromise w in
  match spawn_failure with
  | None =>
      let w := set_worker (Some {| onerror := RejectPromise p |}) w in
      let '(id, w) := generateId fresh w in
      let w := pendingSet id
                 {| PendingRequest.resolve := ResolveInit p;
                    PendingRequest.reject := RejectPromise p |} w in
      let w := postMessage
                 (InitMsg id (LoadOptions.moduleUrl options) (LoadOptions.init options))
                 [] w in
      (p, w)
  | Some error =>
      let errorMsg := errorMsg_of error in
      (p, callReject (RejectPromise p)
            (Error ("Failed to create worker: " +:+ errorMsg)) w)
  end.

(** [load]: a new instance, then [init] on it. *)
Definition load (spawn_failure : option Thrown) (options : LoadOptions.t)
    (fresh : string) : nat * World :=
  init spawn_failure options fresh initial.

(** The [error] listener of the worker. *)
Definition handleWorkerError (message : string) (w : World) : World :=
  match worker w with
  | Some wk => callReject (onerror wk) (Error ("Worker error: " +:+ message)) w
  | None => w
  end.

(** [handleMessage] *)
Definition handleMessage (msg : WorkerResponse) (w : World) : World :=
  match msg with
  | ReadyMsg => w
  | ResultMsg id value =>
      match pendingRequests w !! id with
      | Some pending =>
          let w := callResolve (PendingRequest.resolve pending) value w in
          pendingDelete id w
      | None => w
      end
  | ErrorMsg id code message details =>
      let pending := pendingRequests w !! id in
      let streaming := streamingRequests w !! id in
      let error := createError code message details in
      let w := match pending with
               | Some pending =>
                   let w := callReject (PendingRequest.reject pending) error w in
                   pendingDelete id w
               | None => w
               end in
      match streaming with
      | Some request =>
          let w := callReject (StreamingRequest.reject (deref request w)) error w in
          streamingDelete id w
      | None => w
      end
  | StreamChunkMsg id value =>
      match streamingRequests w !! id with
      | Some request =>
          let w := push request value w in
          if fn_truthy (StreamingRequest.resolve (deref request w)) then
            let resolve := StreamingRequest.resolve (deref request w) in
            let '(oldest, w) := shift request w in
            callResolve resolve (IteratorResult oldest false) w
          else w
      | None => w
      end
  | StreamCloseMsg id =>
      match streamingRequests w !! id with
      | Some request =>
          let w := markDone request w in
          let w := if fn_truthy (StreamingRequest.resolve (deref request w)) then
                     callResolve (StreamingRequest.resolve (deref request w))
                                 (IteratorResult VUndefined true) w
                   else w in
          streamingDelete id w
      | None => w
      end
  end.

(** [call].  An [async] function that throws returns a rejected promise:
    [inl e].  Otherwise it returns the promise it made: [inr p]. *)
Definition call (fn : string) (payload : Value) (options : option CallOptions.t)
    (fresh : string) (w : World) : (JsError + nat) * World :=
  match worker w with
  | None => (inl (Error "Worker not initialized"), w)
  | Some _ =>
      if negb (initialized w) then (inl (Error "Worker not ready"), w)
      else
        let '(p, w) := newPromise w in
        let '(id, w) := generateId fresh w in
        let w := pendingSet id
                   {| PendingRequest.resolve := ResolvePromise p;
                      PendingRequest.reject := RejectPromise p |} w in
        let transfer := match options with
                        | Some {| CallOptions.transfer := Some t |} => t
                        | _ => []
                        end in
        let w := postMessage (CallMsg id fn payload) transfer w in
        (inr p, w)
  end.

(** [stream(fn, payload)]: calling an async generator function only makes
    the generator object; nothing of the body runs yet. *)
Definition stream (fn : string) (payload : Value) (w : World) : nat * World :=
  (length (generators w),
   set_generators
     (generators w ++
        [{| gen_fn := fn; gen_payload := payload; gen_state := SuspendedStart;
            observed := [] |}]) w).

(** The [while] loop of [stream] with its [finally], run from the test of
    the loop until the generator is suspended again or completes.  A request
    is being served and [queued] more wait behind it.  The result is the
    state in which the generator stops and the answers it gave. *)
Fixpoint stream_loop (queued : nat) (id : string) (request : nat) (w : World)
  : GenState * list Observation * World :=
  let r := deref request w in
  if negb (StreamingRequest.done r) || (0 <? length (StreamingRequest.queue r))%nat then
    if (0 <? length (StreamingRequest.queue r))%nat then
      let '(x, w) := shift request w in
      match queued with
      | 0 => (SuspendedYield id request, [Yielded x], w)
      | S queued' =>
          let '(st, obs, w) := stream_loop queued' id request w in
          (st, Yielded x :: obs, w)
      end
    else
      let '(p, w) := newPromise w in
      let w := setWaiter request p w in
      (AwaitingChunk id request p queued, [], w)
  else
    let w := streamingDelete id w in
    (Completed, Finished :: replicate queued Finished, w).

(** The body of [stream] from its first statement. *)
Definition stream_start (fn : string) (payload : Value) (fresh : string) (w : World)
  : GenState * list Observation * World :=
  match worker w with
  | None => (Completed, [Failed (Error "Worker not initialized")], w)
  | Some _ =>
      if negb (initialized w) then (Completed, [Failed (Error "Worker not ready")], w)
      else
        let '(id, w) := generateId fresh w in
        let '(request, w) :=
          alloc {| StreamingRequest.queue := []; StreamingRequest.resolve := ResolveNoop;
                   StreamingRequest.reject := RejectNoop;
                   StreamingRequest.done := false |} w in
        let w := streamingSet id request w in
        let w := postMessage (StreamOpenMsg id fn payload) [] w in
        stream_loop 0 id request w
  end.

Definition update_generator (g : nat) (st : GenState) (obs : list Observation)
    (w : World) : World :=
  match generators w !! g with
  | Some gen =>
      set_generators
        (<[g := {| gen_fn := gen_fn gen; gen_payload := gen_payload gen;
                   gen_state := st; observed := observed gen ++ obs |}]>
           (generators w)) w
  | None => w
  end.

(** The consumer calls [next()] on generator [g]. *)
Definition next (g : nat) (fresh : string) (w : World) : World :=
  match generators w !! g with
  | None => w
  | Some gen =>
      match gen_state gen with
      | SuspendedStart =>
          let '(st, obs, w) := stream_start (gen_fn gen) (gen_payload gen) fresh w in
          update_generator g st obs w
      | SuspendedYield id request =>
          let '(st, obs, w) := stream_loop 0 id request w in
          update_generator g st obs w
      | AwaitingChunk id request p queued =>
          update_generator g (AwaitingChunk id request p (S queued)) [] w
      | Completed => update_generator g Completed [Finished] w
      end
  end.

(** Generator [g] goes on after its [await] once the awaited promise is
    settled: the loop goes round again (the value of the [await] is not
    used), or the rejection is thrown at the [await] and the [finally] runs. *)
Definition resume (g : nat) (w : World) : World :=
  match generators w !! g with
  | None => w
  | Some gen =>
      match gen_state gen with
      | AwaitingChunk id request p queued =>
          match promises w !! p with
          | Some (Fulfilled _) =>
              let '(st, obs, w) := stream_loop queued id request w in
              update_generator g st obs w
          | Some (Rejected e) =>
              let w := streamingDelete id w in
              update_generator g Completed (Failed e :: replicate queued Finished) w
          | _ => w
          end
      | _ => w
      end
  end.

(** The microtasks that follow a task: every generator whose awaited
    promise is settled goes on. *)
Definition drain (w : World) : World :=
  foldl (fun w g => resume g w) w (seq 0 (length (generators w))).

(** [terminate] *)
Definition terminate (w : World) : World :=
  match worker w with
  | Some _ =>
      let w := emit Terminated w in
      let w := set_worker None w in
      let w := set_initialized false w in
      let w := set_pendingRequests ∅ w in
      set_streamingRequests ∅ w
  | None => w
  end.

(** ** Runs of the Controller

    One event is one task of the event loop of the main thread, followed by
    its microtasks. *)
Inductive Event :=
  | EvInit (spawn_failure : option Thrown) (options : LoadOptions.t) (fresh : string)
  | EvWorkerError (message : string)
  | EvMessage (msg : WorkerResponse)
  | EvCall (fn : string) (payload : Value) (options : option CallOptions.t)
           (fresh : string)
  | EvStream (fn : string) (payload : Value)
  | EvNext (g : nat) (fresh : string)
  | EvTerminate.

Definition task (e : Event) (w : World) : World :=
  match e with
  | EvInit spawn_failure options fresh => (init spawn_failure options fresh w).2
  | EvWorkerError message => handleWorkerError message w
  | EvMessage msg => handleMessage msg w
  | EvCall fn payload options fresh => (call fn payload options fresh w).2
  | EvStream fn payload => (stream fn payload w).2
  | EvNext g fresh => next g fresh w
  | EvTerminate => terminate w
  end.

Definition step (e : Event) (w : World) : World := drain (task e w).

Definition run (events : list Event) (w : World) : World :=
  foldl (fun w e => step e w) w events.

(** ** Notions used in the statements about the Controller *)

(** Every key of [m'] is a key of [m] or one of the ids [l]. *)
Definition keys_within {A} (m' m : gmap string A) (l : list string) : Prop :=
  forall id, is_Some (m' !! id) -> is_Some (m !! id) \/ id ∈ l.

(** From [w] to [w'] some ids [l] were generated, and only they can be new
    keys, in one registry only. *)
Definition reg_step (w w' : World) : Prop :=
  exists l, generated w' = generated w ++ l /\
    ((keys_within (pendingRequests w') (pendingRequests w) [] /\
      keys_within (streamingRequests w') (streamingRequests w) l) \/
     (keys_within (pendingRequests w') (pendingRequests w) l /\
      keys_within (streamingRequests w') (streamingRequests w) [])).

(** What running a generator may change: the heap, the generators, new
    pending promises, and entries deleted from [streamingRequests]. *)
Record gen_frame (w w' : World) : Prop := {
  gf_worker : worker w' = worker w;
  gf_pending : pendingRequests w' = pendingRequests w;
  gf_initialized : initialized w' = initialized w;
  gf_generated : generated w' = generated w;
  gf_effects : effects w' = effects w;
  gf_promises : exists l, promises w' = promises w ++ l;
  gf_streaming : streamingRequests w' ⊆ streamingRequests w;
}.

(** Every registered id was generated, and no id is in both registries. *)
Definition registries_ok (w : World) : Prop :=
  (forall id, is_Some (pendingRequests w !! id) -> id ∈ generated w) /\
  (forall id, is_Some (streamingRequests w !! id) -> id ∈ generated w) /\
  (forall id, is_Some (pendingRequests w !! id) -> streamingRequests w !! id = None).

(** The id [X] was generated and is in no registry any more. *)
Definition retired (X : string) (w : World) : Prop :=
  X ∈ generated w /\ pendingRequests w !! X = None /\ streamingRequests w !! X = None.

(** [m] is a [result] or an [error] message with the id [X]. *)
Definition settles (X : string) (m : WorkerResponse) : Prop :=
  (exists v, m = ResultMsg X v) \/ (exists c msg d, m = ErrorMsg X c msg d).

(** The call that such a message makes on the callbacks of a pending entry. *)
Definition settlement_of (entry : PendingRequest.t) (m : WorkerResponse) : list Effect :=
  match m with
  | ResultMsg _ v => [CalledResolve (PendingRequest.resolve entry) v]
  | ErrorMsg _ c msg d =>
      [CalledReject (PendingRequest.reject entry) (createError c msg d)]
  | _ => []
  end.

(** While there is no worker, both registries are empty and [initialized]
    is false. *)
Definition idle_ok (w : World) : Prop :=
  worker w = None ->
  pendingRequests w = ∅ /\ streamingRequests w = ∅ /\ initialized w = false.

(** The registry that owns the id of a request. *)
Definition owner (m : WorkerRequest) : Registry :=
  match m with
  | InitMsg _ _ _ | CallMsg _ _ _ => PendingRegistry
  | StreamOpenMsg _ _ _ => StreamingRegistry
  end.

(** In a list of effects, every posting of a request comes just after the
    registration of its id in the registry that owns it. *)
Definition registered_before_posted (l : list Effect) : Prop :=
  forall i m transfer,
    l !! i = Some (Posted m transfer) ->
    exists j, i = S j /\ l !! j = Some (Registered (owner m) (request_id m)).

(** No request is posted in [l]. *)
Definition no_posting (l : list Effect) : Prop :=
  forall m transfer, Posted m transfer ∉ l.

(** The effects that one run of a method adds. *)
Definition adds (w w' : World) (chunk : list Effect) : Prop :=
  effects w' = effects w ++ chunk.

(** Every queue is empty. *)
Definition queues_empty (w : World) : Prop :=
  Forall (fun r => StreamingRequest.queue r = []) (heap w).

(** No consumer has been given a chunk. *)
Definition nothing_yielded (w : World) : Prop :=
  forall g gen v, generators w !! g = Some gen -> Yielded v ∉ observed gen.

(** What holds of the streams between two events. *)
Definition stream_ok (w : World) : Prop := queues_empty w /\ nothing_yielded w.

(** Every promise that is settled in [w] is the same in [w']. *)
Definition keeps_settled (w w' : World) : Prop :=
  forall p s, promises w !! p = Some s -> s <> Pending -> promises w' !! p = Some s.

(** Generator [g], if it is suspended at the [await], awaits a promise that
    is still pending. *)
Definition awaits_pending (w : World) (g : nat) : Prop :=
  forall gen id request p queued,
    generators w !! g = Some gen ->
    gen_state gen = AwaitingChunk id request p queued ->
    promises w !! p = Some Pending.

(** The promise that a generator awaits is a cell of the promise store. *)
Definition awaits_existing (w : World) : Prop :=
  forall g gen id request p queued,
    generators w !! g = Some gen ->
    gen_state gen = AwaitingChunk id request p queued ->
    p < length (promises w).

(** No generator can go on: no microtask is waiting. *)
Definition quiet (w : World) : Prop := forall g, awaits_pending w g.

End Bridge.

(** * Sample data: the module of examples/rust-add and a loaded Controller *)

Module Sample.

Import Runtime.

(** Exports in the manner of examples/rust-add, on integer arguments: [add],
    [double], a function [f] without parameters, and a division that traps
    when the divisor is zero. *)
Definition i32_of (v : option Value) : Z :=
  match v with Some (VNum n) => n | _ => 0%Z end.
Definition add : WasmFunction :=
  fun args => Returns (VNum (i32_of (args !! 0%nat) + i32_of (args !! 1%nat))).
Definition double : WasmFunction :=
  fun args => Returns (VNum (2 * i32_of (args !! 0%nat))).
Definition answer : WasmFunction := fun _ => Returns (VNum 42).
Definition divide : WasmFunction :=
  fun args =>
    if (i32_of (args !! 1%nat) =? 0)%Z then Throws (ThrowError "divide by zero")
    else Returns (VNum (i32_of (args !! 0%nat) / i32_of (args !! 1%nat))).
Definition module_instance : Instance :=
  {| exports := [("memory", ExMemory {| pages := 17 |});
                 ("add", ExFunction add); ("double", ExFunction double);
                 ("f", ExFunction answer); ("divide", ExFunction divide);
                 ("__heap_base", ExOther)] |}.

(** The Runtime once [init] has succeeded with this module. *)
Definition ready_context : Context :=
  {| state := {| instance := Some module_instance;
                 memory := Some {| pages := 17 |}; initialized := true |};
     outbox := [ReadyMsg; ResultMsg "init-1" (VObj [("initialized", VBool true)])];
     invoked := [] |}.

(** A platform on which the locator cannot be reached: [fetch] rejects. *)
Definition offline : Platform :=
  {| fetch := fun _ => Throws (ThrowError "Failed to fetch");
     compile := fun buf => Returns {| code := buf |};
     instantiate := fun _ _ => Returns module_instance |}.

Definition options : LoadOptions.t :=
  {| LoadOptions.moduleUrl := "/examples/rust-add/dist/module.wasm";
     LoadOptions.init := VUndefined |}.

(** [WasmWorker.load(options)] and the answer of the Runtime to [init]. *)
Definition loaded : list Bridge.Event :=
  [Bridge.EvInit None options "init-1";
   Bridge.EvMessage (ResultMsg "init-1" (VObj [("initialized", VBool true)]))].

(** A consumer opens a stream and reads; the Runtime side sends three
    chunks and closes the stream. *)
Definition streamed : list Bridge.Event :=
  loaded ++
  [Bridge.EvStream "tokens" VUndefined;
   Bridge.EvNext 0 "stream-1";
   Bridge.EvMessage (StreamChunkMsg "stream-1" (VStr "v1"));
   Bridge.EvMessage (StreamChunkMsg "stream-1" (VStr "v2"));
   Bridge.EvMessage (StreamChunkMsg "stream-1" (VStr "v3"));
   Bridge.EvMessage (StreamCloseMsg "stream-1")].
End Sample.

(** * The worker as it handles one message after the other *)

Module Serving.
Import Runtime.

(** The [message] listener run on each message of [msgs] in turn, every
    [handleInit] having settled before the next message is handled. *)
Definition serve (P : Platform) (msgs : list WorkerRequest) (c : Context) : Context :=
  foldl (fun c msg => (onmessage P msg c).2) c msgs.

(** A message is an answer to a request: a [result] or an [error]. *)
Definition is_answer (r : WorkerResponse) : Prop :=
  match r with
  | ResultMsg _ _ | ErrorMsg _ _ _ _ => True
  | _ => False
  end.

(** The error code of a message, when it is an [error]. *)
Definition error_code (r : WorkerResponse) : option ErrorCode :=
  match r with
  | ErrorMsg _ code _ _ => Some code
  | _ => None
  end.

End Serving.

(** * The Controller and the Runtime joined by the channel

    [WasmWorker.load] makes the worker from [worker/runtime.js]; the two sides
    then only exchange messages.  The channel keeps the order of the messages
    in each direction. *)

Module System.

(** The requests among the effects of the Controller, oldest first. *)
Definition posted_requests (l : list Bridge.Effect) : list WorkerRequest :=
  omap (fun e => match e with
                 | Bridge.Posted m _ => Some m
                 | _ => None
                 end) l.

(** What a list that only grows has gained. *)
Definition added {A} (before after : list A) : list A := drop (length before) after.

(** The Controller, the context of the worker, and the messages in flight in
    each direction, oldest first. *)
Record t := {
  main : Bridge.World;
  context : Runtime.Context;
  to_worker : list WorkerRequest;
  to_main : list WorkerResponse;
}.

(** [WasmWorker.load(options)] when the worker can be made: [init] has run on
    a new instance, the [init] request is in flight, and the worker has been
    evaluated and has posted [ready]. *)
Definition boot (options : LoadOptions.t) (fresh : string) : t :=
  let w := (Bridge.load None options fresh).2 in
  {| main := w;
     context := Runtime.startup;
     to_worker := posted_requests (Bridge.effects w);
     to_main := Runtime.outbox Runtime.startup |}.

Inductive Action :=
  | Call (fn : string) (payload : Value) (options : option CallOptions.t) (fresh : string)
  | Stream (fn : string) (payload : Value)
  | Next (g : nat) (fresh : string)
  | Terminate
  | ToWorker     (* the worker handles the oldest request in flight *)
  | ToMain.      (* the Controller handles the oldest response in flight *)

(** The caller runs a method of the Controller; what it posts is in flight. *)
Definition user (e : Bridge.Event) (s : t) : t :=
  let w' := Bridge.step e (main s) in
  {| main := w';
     context := context s;
     to_worker := to_worker s ++
                  posted_requests (added (Bridge.effects (main s)) (Bridge.effects w'));
     to_main := to_main s |}.

(** One action.  [worker.terminate()] stops the worker: the requests in
    flight are never handled; the answers that it had posted may still
    arrive. *)
Definition act (P : Runtime.Platform) (a : Action) (s : t) : t :=
  match a with
  | Call fn payload options fresh => user (Bridge.EvCall fn payload options fresh) s
  | Stream fn payload => user (Bridge.EvStream fn payload) s
  | Next g fresh => user (Bridge.EvNext g fresh) s
  | Terminate =>
      {| main := Bridge.step Bridge.EvTerminate (main s);
         context := context s; to_worker := []; to_main := to_main s |}
  | ToWorker =>
      match to_worker s with
      | [] => s
      | msg :: rest =>
          let c' := (Runtime.onmessage P msg (context s)).2 in
          {| main := main s;
             context := c';
             to_worker := rest;
             to_main := to_main s ++
                        added (Runtime.outbox (context s)) (Runtime.outbox c') |}
      end
  | ToMain =>
      match to_main s with
      | [] => s
      | msg :: rest =>
          {| main := Bridge.step (Bridge.EvMessage msg) (main s);
             context := context s;
             to_worker := to_worker s;
             to_main := rest |}
      end
  end.

Definition exec (P : Runtime.Platform) (actions : list Action) (s : t) : t :=
  foldl (fun s a => act P a s) s actions.

(** The Controller is loaded, the Runtime serves the module [inst], and
    nothing is in flight. *)
Definition ready (inst : Runtime.Instance) (s : t) : Prop :=
  Bridge.worker (main s) <> None /\
  Bridge.initialized (main s) = true /\
  Runtime.initialized (Runtime.state (context s)) = true /\
  Runtime.instance (Runtime.state (context s)) = Some inst /\
  to_worker s = [] /\ to_main s = [].



End System.

(** * Notions used in more statements about the Controller *)

Module Streams.
Import Bridge.

(** Two generators never await the same promise. *)
Definition awaits_distinct (w : World) : Prop :=
  forall g1 g2 gen1 gen2 id1 request1 queued1 id2 request2 queued2 p,
    generators w !! g1 = Some gen1 ->
    gen_state gen1 = AwaitingChunk id1 request1 p queued1 ->
    generators w !! g2 = Some gen2 ->
    gen_state gen2 = AwaitingChunk id2 request2 p queued2 ->
    g1 = g2.

(** The generator [gen] once it has completed with the answers [obs]. *)
Definition completed_with (gen : Generator) (obs : list Observation) : Generator :=
  {| gen_fn := gen_fn gen; gen_payload := gen_payload gen; gen_state := Completed;
     observed := observed gen ++ obs |}.

(** A message that no entry of the registries waits for: [ready], or a message
    whose id is in neither registry. *)
Definition unmatched (msg : WorkerResponse) (w : World) : Prop :=
  forall id, response_id msg = Some id ->
             pendingRequests w !! id = None /\ streamingRequests w !! id = None.

End Streams.

(** * More sample data *)

Module Scenario.
Import Runtime.

(** A platform that serves the module of [Sample]. *)
Definition online : Platform :=
  {| fetch := fun _ =>
       Returns {| ok := true; status := 200; statusText := "OK";
                  arrayBuffer := Returns [0; 97; 115; 109]%Z |};
     compile := fun buf => Returns {| code := buf |};
     instantiate := fun _ _ => Returns Sample.module_instance |}.

(** A platform whose server does not have the module. *)
Definition missing : Platform :=
  {| fetch := fun _ =>
       Returns {| ok := false; status := 404; statusText := "Not Found";
                  arrayBuffer := Returns [] |};
     compile := fun buf => Returns {| code := buf |};
     instantiate := fun _ _ => Returns Sample.module_instance |}.

(** A module that exports no memory. *)
Definition bare_instance : Instance :=
  {| exports := [("add", ExFunction Sample.add)] |}.

End Scenario.

(** * Properties of the Runtime *)

Module RuntimeSpec.
Import Runtime.

Section Call.
Variables (c : Context) (inst : Instance) (id fn : string) (payload : Value).
Hypothesis Hinit : initialized (state c) = true.
Hypothesis Hinst : instance (state c) = Some inst.

Lemma handleCall_found (f : WasmFunction) :
  export_get (exports inst) fn = Some (ExFunction f) ->
  handleCall id fn payload c =
    (Returns tt,
     posting
       (match f (arguments_of payload) with
        | Returns result => ResultMsg id result
        | Throws t => trap_message id fn t
        end)
       (invoking fn (arguments_of payload) c)).
Proof.
  intros Hf. unfold handleCall, mbind, M_bind, bind, get_state. 
  rewrite Hinit, Hinst. unfold try_catch. rewrite Hf.
  destruct payload; cbn; destruct (f _); reflexivity.
Qed.

Lemma handleCall_not_function :
  is_function (export_get (exports inst) fn) = false ->
  handleCall id fn payload c =
    (Returns tt,
     posting
       (ErrorMsg id FN_NOT_FOUND
          ("Function " +:+ dquote +:+ fn +:+ dquote +:+ " not found in WASM module")
          (VObj [("availableFunctions", VArr (VStr <$> callable_names inst))]))
       c).
Proof.
  intros Hf. unfold handleCall, mbind, M_bind, bind, get_state.
  rewrite Hinit, Hinst. unfold try_catch.
  destruct (export_get (exports inst) fn) as [[]|]; try discriminate; reflexivity.
Qed.
End Call.

Lemma handleCall_uninitialized c id fn payload :
  initialized (state c) = false \/ instance (state c) = None ->
  handleCall id fn payload c =
    (Returns tt,
     posting (ErrorMsg id NOT_INITIALIZED "Worker not initialized with WASM module"
                VUndefined) c).
Proof.
  intros H. unfold handleCall, mbind, M_bind, bind, get_state.
  destruct H as [-> | ->]; [reflexivity|]. by destruct (initialized _).
Qed.

Lemma callable_names_spec inst k :
  k ∈ callable_names inst <->
  exists f, export_get (exports inst) k = Some (ExFunction f).
Proof.
  unfold callable_names, Object_keys. rewrite list_elem_of_filter. split.
  - intros [Hf _]. destruct (export_get _ k) as [[f| |]|]; try discriminate. eauto.
  - intros [f Hf]. rewrite Hf. split; [done|].
    revert Hf. generalize (exports inst). induction l as [|[k' e] l IH]; cbn; [done|].
    destruct (String.eqb_spec k' k) as [->|Hne]; intros Hf.
    + left.
    + right. auto.
Qed.

Lemma handleCall_returns c id fn payload :
  (handleCall id fn payload c).1 = Returns tt.
Proof.
  destruct (initialized (state c)) eqn:Hi; [|by rewrite handleCall_uninitialized; auto].
  destruct (instance (state c)) as [inst|] eqn:Hs;
    [|by rewrite handleCall_uninitialized; auto].
  destruct (export_get (exports inst) fn) as [[f| |]|] eqn:Hf.
  - by erewrite handleCall_found.
  - erewrite handleCall_not_function; eauto. by rewrite Hf.
  - erewrite handleCall_not_function; eauto. by rewrite Hf.
  - erewrite handleCall_not_function; eauto. by rewrite Hf.
Qed.

Lemma handleInit_returns P id moduleUrl init c :
  (handleInit P id moduleUrl init c).1 = Returns tt.
Proof.
  unfold handleInit, try_catch, mbind, M_bind, bind, await.
  destruct (fetch P moduleUrl) as [response|t]; [|reflexivity].
  destruct (ok response); cbn; [|reflexivity].
  destruct (arrayBuffer response) as [buf|t]; [|reflexivity].
  destruct (compile P buf) as [m|t]; [|reflexivity].
  destruct (instantiate P m _) as [inst|t]; [|reflexivity].
  cbn. destruct (memory_export inst); reflexivity.
Qed.

Lemma onmessage_returns P msg c : (onmessage P msg c).1 = Returns tt.
Proof.
  destruct msg; cbn; auto using handleInit_returns, handleCall_returns.
Qed.

(** What [handleInit] does when the response is not [ok], when
    [WebAssembly.instantiate] rejects, and when everything succeeds. *)
Lemma handleInit_response_not_ok P id moduleUrl init c response :
  fetch P moduleUrl = Returns response -> ok response = false ->
  handleInit P id moduleUrl init c =
    (Returns tt,
     posting
       (ErrorMsg id MODULE_FETCH_FAILED
          ("Failed to fetch module: " +:+ statusText response)
          (VObj [("status", VNum (status response)); ("url", VStr moduleUrl)]))
       c).
Proof.
  intros Hf Hok. unfold handleInit, try_catch, mbind, M_bind, bind, await.
  by rewrite Hf, Hok.
Qed.

Lemma handleInit_instantiate_fails P id moduleUrl init c response buf m t :
  fetch P moduleUrl = Returns response -> ok response = true ->
  arrayBuffer response = Returns buf -> compile P buf = Returns m ->
  instantiate P m (VObj [("env", if truthy init then init else VObj [])]) = Throws t ->
  handleInit P id moduleUrl init c =
    (Returns tt,
     posting
       (ErrorMsg id WASM_INIT_FAILED
          ("Failed to initialize WASM module: " +:+ errorMsg_of t)
          (VObj [("error", VStr (errorMsg_of t))]))
       c).
Proof.
  intros Hf Hok Hb Hc Hi. unfold handleInit, try_catch, mbind, M_bind, bind, await.
  rewrite Hf, Hok. cbn. by rewrite Hb, Hc, Hi.
Qed.

Lemma handleInit_success P id moduleUrl init c response buf m inst :
  fetch P moduleUrl = Returns response -> ok response = true ->
  arrayBuffer response = Returns buf -> compile P buf = Returns m ->
  instantiate P m (VObj [("env", if truthy init then init else VObj [])]) = Returns inst ->
  let c' := (handleInit P id moduleUrl init c).2 in
  initialized (state c') = true /\
  instance (state c') = Some inst /\
  outbox c' = outbox c ++ [ResultMsg id (VObj [("initialized", VBool true)])].
Proof.
  intros Hf Hok Hb Hc Hi. unfold handleInit, try_catch, mbind, M_bind, bind, await.
  rewrite Hf, Hok. cbn. rewrite Hb, Hc, Hi. cbn.
  by destruct (memory_export inst).
Qed.



(** C6.  A [call] on a Runtime that is not initialized is answered with
    [NOT_INITIALIZED] for its id; a [call] on an initialized Runtime that
    names no export is answered with [FN_NOT_FOUND], whose details list
    under [availableFunctions] exactly the names of the exports that are
    functions.  In both cases nothing is invoked. *)
Theorem handleCall_refuses c id fn payload :
  let c' := (handleCall id fn payload c).2 in
  (initialized (state c) = false \/ instance (state c) = None ->
     outbox c' = outbox c ++
       [ErrorMsg id NOT_INITIALIZED "Worker not initialized with WASM module" VUndefined] /\
     invoked c' = invoked c) /\
  (forall inst,
     initialized (state c) = true -> instance (state c) = Some inst ->
     export_get (exports inst) fn = None ->
     exists names,
       outbox c' = outbox c ++
         [ErrorMsg id FN_NOT_FOUND
            ("Function " +:+ dquote +:+ fn +:+ dquote +:+ " not found in WASM module")
            (VObj [("availableFunctions", VArr (VStr <$> names))])] /\
       (forall k, k ∈ names <->
                  exists f, export_get (exports inst) k = Some (ExFunction f)) /\
       invoked c' = invoked c).
Proof.
  cbn zeta. split.
  - intros H. by rewrite handleCall_uninitialized.
  - intros inst Hi Hs Hf. exists (callable_names inst).
    rewrite (handleCall_not_function c inst id fn payload Hi Hs) by (by rewrite Hf).
    split; [done|]. split; [|done]. apply callable_names_spec.
Qed.

Lemma handleCall_refuses_witness :
  outbox (handleCall "c1" "add" (VObj [("a", VNum 1); ("b", VNum 2)]) startup).2
    = [ReadyMsg;
       ErrorMsg "c1" NOT_INITIALIZED "Worker not initialized with WASM module"
         VUndefined] /\
  exists names,
    outbox (handleCall "c2" "missingFn" (VObj []) Sample.ready_context).2
      = outbox Sample.ready_context ++
        [ErrorMsg "c2" FN_NOT_FOUND
           ("Function " +:+ dquote +:+ "missingFn" +:+ dquote +:+
            " not found in WASM module")
           (VObj [("availableFunctions", VArr (VStr <$> names))])] /\
    (forall k, k ∈ names <->
               exists f, export_get (exports Sample.module_instance) k
                         = Some (ExFunction f)) /\
    invoked (handleCall "c2" "missingFn" (VObj []) Sample.ready_context).2 = [].
Proof.
  split.
  - exact (proj1 (proj1 (handleCall_refuses startup "c1" "add"
                           (VObj [("a", VNum 1); ("b", VNum 2)]))
                    (or_introl eq_refl))).
  - exact (proj2 (handleCall_refuses Sample.ready_context "c2" "missingFn" (VObj []))
             Sample.module_instance eq_refl eq_refl eq_refl).
Defined.

(** C7.  When the function that [handleCall] invokes raises, the exception
    is answered with [WASM_TRAP] for the id of the call, with the name of
    the function and the message of the failure, and the state of the
    Runtime is as before.  No message makes the handler of the worker
    throw, so the next call is served: a function that returns then gets
    its [result]. *)
Theorem handleCall_catches_trap P c inst id fn f payload t :
  initialized (state c) = true ->
  instance (state c) = Some inst ->
  export_get (exports inst) fn = Some (ExFunction f) ->
  f (arguments_of payload) = Throws t ->
  let r := onmessage P (CallMsg id fn payload) c in
  r.1 = Returns tt /\
  state r.2 = state c /\
  outbox r.2 = outbox c ++
    [ErrorMsg id WASM_TRAP ("WASM execution error: " +:+ errorMsg_of t)
       (VObj [("function", VStr fn); ("error", VStr (errorMsg_of t))])] /\
  (forall msg c0, (onmessage P msg c0).1 = Returns tt) /\
  (forall id' fn' g payload' v,
     export_get (exports inst) fn' = Some (ExFunction g) ->
     g (arguments_of payload') = Returns v ->
     outbox (onmessage P (CallMsg id' fn' payload') r.2).2
       = outbox r.2 ++ [ResultMsg id' v]).
Proof.
  intros Hi Hs Hf Ht. cbn zeta. cbn [onmessage].
  rewrite (handleCall_found c inst id fn payload Hi Hs f Hf), Ht.
  cbn [fst snd posting invoking state outbox trap_message].
  split; [done|]. split; [done|]. split; [done|].
  split; [apply onmessage_returns|].
  intros id' fn' g payload' v Hg Hv.
  erewrite handleCall_found; [|exact Hi|exact Hs|exact Hg].
  by rewrite Hv.
Qed.

Lemma handleCall_catches_trap_witness :
  let r := onmessage Sample.offline
             (CallMsg "c7" "divide" (VObj [("a", VNum 1); ("b", VNum 0)]))
             Sample.ready_context in
  r.1 = Returns tt /\
  state r.2 = state Sample.ready_context /\
  outbox r.2 = outbox Sample.ready_context ++
    [ErrorMsg "c7" WASM_TRAP "WASM execution error: divide by zero"
       (VObj [("function", VStr "divide"); ("error", VStr "divide by zero")])] /\
  outbox (onmessage Sample.offline (CallMsg "c8" "add" (VArr [VNum 5; VNum 3])) r.2).2
    = outbox r.2 ++ [ResultMsg "c8" (VNum 8)].
Proof.
  pose proof (handleCall_catches_trap Sample.offline Sample.ready_context
                Sample.module_instance "c7" "divide" Sample.divide
                (VObj [("a", VNum 1); ("b", VNum 0)]) (ThrowError "divide by zero")
                eq_refl eq_refl eq_refl eq_refl) as (H1 & H2 & H3 & _ & H5).
  cbn zeta. split; [exact H1|]. split; [exact H2|]. split; [exact H3|].
  exact (H5 "c8" "add" Sample.add (VArr [VNum 5; VNum 3]) (VNum 8) eq_refl eq_refl).
Defined.

(** C8 (the code departs from it).  When [fetch] itself rejects, as it does
    for a locator that cannot be reached, [handleInit] answers with
    [WASM_INIT_FAILED] and not with [MODULE_FETCH_FAILED], and the details
    carry neither the status nor the locator. *)
Theorem handleInit_rejected_fetch :
  handleInit Sample.offline "init-1" "https://unreachable.invalid/module.wasm"
    VUndefined startup =
    (Returns tt,
     {| state := {| instance := None; memory := None; initialized := false |};
        outbox := [ReadyMsg;
                   ErrorMsg "init-1" WASM_INIT_FAILED
                     "Failed to initialize WASM module: Failed to fetch"
                     (VObj [("error", VStr "Failed to fetch")])];
        invoked := [] |}).
Proof. reflexivity. Qed.
End RuntimeSpec.

(** * Properties of the Controller *)

Module BridgeSpec.

Import Bridge.

#[local] Arguments stream_loop : simpl never.
#[local] Arguments callResolve : simpl never.
#[local] Arguments callReject : simpl never.
#[local] Arguments settle : simpl never.
#[local] Arguments shift : simpl never.

Lemma gen_frame_refl w : gen_frame w w.
Proof. split; try done. exists []. by rewrite app_nil_r. Qed.

Lemma gen_frame_trans w1 w2 w3 : gen_frame w1 w2 -> gen_frame w2 w3 -> gen_frame w1 w3.
Proof.
  intros [] []. split; try congruence.
  - destruct gf_promises0 as [l1 H1], gf_promises1 as [l2 H2].
    exists (l1 ++ l2). by rewrite H2, H1, app_assoc.
  - etrans; eauto.
Qed.

Lemma shift_frame request w : gen_frame w (shift request w).2.
Proof.
  unfold shift. destruct (StreamingRequest.queue _); cbn; [apply gen_frame_refl|].
  split; try done. exists []. by rewrite app_nil_r.
Qed.

Lemma stream_loop_eq queued id request w :
  stream_loop queued id request w =
    let r := deref request w in
    if negb (StreamingRequest.done r) || (0 <? length (StreamingRequest.queue r))%nat then
      if (0 <? length (StreamingRequest.queue r))%nat then
        let '(x, w) := shift request w in
        match queued with
        | 0 => (SuspendedYield id request, [Yielded x], w)
        | S queued' =>
            let '(st, obs, w) := stream_loop queued' id request w in
            (st, Yielded x :: obs, w)
        end
      else
        let '(p, w) := newPromise w in
        let w := setWaiter request p w in
        (AwaitingChunk id request p queued, [], w)
    else
      let w := streamingDelete id w in
      (Completed, Finished :: replicate queued Finished, w).
Proof. by destruct queued. Qed.

Lemma gen_frame_newPromise w : gen_frame w (newPromise w).2.
Proof. split; try done. cbn. by eexists. Qed.

Lemma gen_frame_assign request r w : gen_frame w (assign request r w).
Proof. split; try done. exists []. by rewrite app_nil_r. Qed.

Lemma gen_frame_streamingDelete id w : gen_frame w (streamingDelete id w).
Proof.
  split; try done; cbn; [exists []; by rewrite app_nil_r|apply delete_subseteq].
Qed.

Lemma stream_loop_frame queued id request w :
  gen_frame w (stream_loop queued id request w).2.
Proof.
  revert w. induction queued as [|queued IH]; intros w; rewrite stream_loop_eq; cbn zeta;
    (destruct (negb _ || _); [destruct (Nat.ltb 0 _)|]);
    try (pose proof (shift_frame request w) as Hs; destruct (shift request w) as [x w1]);
    try apply gen_frame_streamingDelete;
    try (eapply gen_frame_trans; [apply gen_frame_newPromise|apply gen_frame_assign]).
  - done.
  - specialize (IH w1). destruct (stream_loop queued id request w1) as [[st obs] w2].
    cbn in *. eapply gen_frame_trans; eauto.
Qed.

Lemma update_generator_frame g st obs w : gen_frame w (update_generator g st obs w).
Proof.
  unfold update_generator. destruct (generators w !! g); [|apply gen_frame_refl].
  split; try done. exists []. by rewrite app_nil_r.
Qed.

Lemma resume_frame g w : gen_frame w (resume g w).
Proof.
  unfold resume. destruct (generators w !! g) as [gen|]; [|apply gen_frame_refl].
  destruct (gen_state gen); try apply gen_frame_refl.
  destruct (promises w !! p) as [[]|]; try apply gen_frame_refl.
  - pose proof (stream_loop_frame queued id request w) as H.
    destruct (stream_loop queued id request w) as [[st obs] w1]. cbn in H.
    eapply gen_frame_trans; [exact H|apply update_generator_frame].
  - eapply gen_frame_trans; [apply gen_frame_streamingDelete|apply update_generator_frame].
Qed.

Lemma drain_frame w : gen_frame w (drain w).
Proof.
  unfold drain. generalize (seq 0 (length (generators w))). intros l.
  revert w. induction l as [|g l IH]; intros w; cbn; [apply gen_frame_refl|].
  eapply gen_frame_trans; [apply resume_frame|apply IH].
Qed.

(** Calling a callback touches the promise store, the effects and
    [initialized] only. *)
Lemma callResolve_pending f v w : pendingRequests (callResolve f v w) = pendingRequests w.
Proof. unfold callResolve, settle; repeat case_match; done. Qed.
Lemma callResolve_streaming f v w :
  streamingRequests (callResolve f v w) = streamingRequests w.
Proof. unfold callResolve, settle; repeat case_match; done. Qed.
Lemma callResolve_generated f v w : generated (callResolve f v w) = generated w.
Proof. unfold callResolve, settle; repeat case_match; done. Qed.
Lemma callResolve_worker f v w : worker (callResolve f v w) = worker w.
Proof. unfold callResolve, settle; repeat case_match; done. Qed.
Lemma callResolve_heap f v w : heap (callResolve f v w) = heap w.
Proof. unfold callResolve, settle; repeat case_match; done. Qed.
Lemma callResolve_effects f v w :
  effects (callResolve f v w) = effects w ++ [CalledResolve f v].
Proof. unfold callResolve, settle; repeat case_match; done. Qed.

Lemma callReject_pending f e w : pendingRequests (callReject f e w) = pendingRequests w.
Proof. unfold callReject, settle; repeat case_match; done. Qed.
Lemma callReject_streaming f e w :
  streamingRequests (callReject f e w) = streamingRequests w.
Proof. unfold callReject, settle; repeat case_match; done. Qed.
Lemma callReject_generated f e w : generated (callReject f e w) = generated w.
Proof. unfold callReject, settle; repeat case_match; done. Qed.
Lemma callReject_worker f e w : worker (callReject f e w) = worker w.
Proof. unfold callReject, settle; repeat case_match; done. Qed.
Lemma callReject_initialized f e w : initialized (callReject f e w) = initialized w.
Proof. unfold callReject, settle; repeat case_match; done. Qed.
Lemma callReject_heap f e w : heap (callReject f e w) = heap w.
Proof. unfold callReject, settle; repeat case_match; done. Qed.
Lemma callReject_effects f e w :
  effects (callReject f e w) = effects w ++ [CalledReject f e].
Proof. unfold callReject, settle; repeat case_match; done. Qed.

Lemma shift_pending r w : pendingRequests (shift r w).2 = pendingRequests w.
Proof. unfold shift; by case_match. Qed.
Lemma shift_streaming r w : streamingRequests (shift r w).2 = streamingRequests w.
Proof. unfold shift; by case_match. Qed.
Lemma shift_generated r w : generated (shift r w).2 = generated w.
Proof. unfold shift; by case_match. Qed.
Lemma shift_worker r w : worker (shift r w).2 = worker w.
Proof. unfold shift; by case_match. Qed.
Lemma shift_initialized r w : initialized (shift r w).2 = initialized w.
Proof. unfold shift; by case_match. Qed.
Lemma shift_effects r w : effects (shift r w).2 = effects w.
Proof. unfold shift; by case_match. Qed.
Lemma shift_promises r w : promises (shift r w).2 = promises w.
Proof. unfold shift; by case_match. Qed.

Create Rewrite HintDb frame.
#[local] Hint Rewrite callResolve_pending callResolve_streaming callResolve_generated
  callResolve_worker callResolve_heap callResolve_effects
  callReject_pending callReject_streaming callReject_generated callReject_worker
  callReject_initialized callReject_heap callReject_effects
  shift_pending shift_streaming shift_generated shift_worker shift_initialized
  shift_effects shift_promises : frame.

(** [handleMessage] never generates an id, takes out of [pendingRequests]
    at most the id of a [result] or [error], and out of [streamingRequests]
    at most the id of an [error] or [stream_close]. *)
Ltac shift_snd :=
  repeat match goal with
         | H : shift ?r ?w = (_, ?w') |- _ =>
             apply (f_equal snd) in H; cbn [snd] in H; subst w'
         end.

Ltac handleMessage_cases msg :=
  destruct msg; cbn; repeat case_match; shift_snd;
  cbn; autorewrite with frame; cbn; autorewrite with frame.

Lemma handleMessage_generated msg w : generated (handleMessage msg w) = generated w.
Proof. handleMessage_cases msg; done. Qed.

Lemma handleMessage_worker msg w : worker (handleMessage msg w) = worker w.
Proof. handleMessage_cases msg; done. Qed.

Lemma handleMessage_pending msg w :
  pendingRequests (handleMessage msg w) =
    match msg with
    | ResultMsg id _ | ErrorMsg id _ _ _ => delete id (pendingRequests w)
    | _ => pendingRequests w
    end.
Proof. handleMessage_cases msg; try done; by rewrite delete_id. Qed.

Lemma handleMessage_streaming msg w :
  streamingRequests (handleMessage msg w) =
    match msg with
    | ErrorMsg id _ _ _ | StreamCloseMsg id => delete id (streamingRequests w)
    | _ => streamingRequests w
    end.
Proof. handleMessage_cases msg; try done; by rewrite delete_id. Qed.

(** *** How one event changes the registries *)

Lemma keys_within_subseteq {A} (m' m : gmap string A) l :
  m' ⊆ m -> keys_within m' m l.
Proof. intros Hsub id Hs. left. by eapply lookup_weaken_is_Some. Qed.

Lemma keys_within_insert {A} (m : gmap string A) id x :
  keys_within (<[id := x]> m) m [id].
Proof.
  intros id' Hs. apply lookup_insert_is_Some in Hs as [-> | [_ Hs]]; [right|by left].
  apply list_elem_of_singleton. done.
Qed.

Lemma keys_within_trans {A} (m2 m1 m : gmap string A) l :
  m2 ⊆ m1 -> keys_within m1 m l -> keys_within m2 m l.
Proof. intros Hsub H id Hs. apply H. by eapply lookup_weaken_is_Some. Qed.

Lemma reg_step_same w w' :
  generated w' = generated w ->
  pendingRequests w' ⊆ pendingRequests w ->
  streamingRequests w' ⊆ streamingRequests w ->
  reg_step w w'.
Proof.
  intros Hg Hp Hs. exists []. rewrite app_nil_r. split; [done|].
  left. split; by apply keys_within_subseteq.
Qed.

Lemma reg_step_frame w w1 w2 : reg_step w w1 -> gen_frame w1 w2 -> reg_step w w2.
Proof.
  intros (l & Hg & H) []. exists l. rewrite gf_generated0, gf_pending0. split; [done|].
  destruct H as [[Hp Hs] | [Hp Hs]]; [left|right]; (split; [done|]);
    by eapply keys_within_trans.
Qed.

Lemma stream_start_reg_step fn payload fresh w :
  reg_step w (stream_start fn payload fresh w).2.
Proof.
  unfold stream_start. destruct (worker w); [|by apply reg_step_same].
  destruct (negb (initialized w)); [by apply reg_step_same|]. cbn.
  eapply reg_step_frame; [|apply stream_loop_frame].
  exists [fresh]. split; [done|]. left. split; [by apply keys_within_subseteq|].
  apply keys_within_insert.
Qed.

Lemma task_reg_step e w : reg_step w (task e w).
Proof.
  destruct e as [spawn_failure options fresh|message|msg|fn payload options fresh
                |fn payload|g fresh|]; cbn.
  - destruct spawn_failure; cbn.
    + apply reg_step_same; by autorewrite with frame.
    + exists [fresh]. split; [done|]. right.
      split; [apply keys_within_insert|by apply keys_within_subseteq].
  - unfold handleWorkerError. destruct (worker w); apply reg_step_same;
      by autorewrite with frame.
  - apply reg_step_same.
    + apply handleMessage_generated.
    + rewrite handleMessage_pending. destruct msg; try done; apply delete_subseteq.
    + rewrite handleMessage_streaming. destruct msg; try done; apply delete_subseteq.
  - unfold call. destruct (worker w); [|by apply reg_step_same].
    destruct (negb (initialized w)); [by apply reg_step_same|]. cbn.
    exists [fresh]. split; [done|]. right.
    split; [apply keys_within_insert|by apply keys_within_subseteq].
  - by apply reg_step_same.
  - unfold next. destruct (generators w !! g) as [gen|]; [|by apply reg_step_same].
    destruct (gen_state gen).
    + pose proof (stream_start_reg_step (gen_fn gen) (gen_payload gen) fresh w) as H.
      destruct (stream_start _ _ _ _) as [[st obs] w1]. cbn in H.
      eapply reg_step_frame; [exact H|apply update_generator_frame].
    + eapply reg_step_frame; [|apply update_generator_frame]. by apply reg_step_same.
    + pose proof (stream_loop_frame 0 id request w) as H.
      destruct (stream_loop 0 id request w) as [[st obs] w1]. cbn in H.
      eapply reg_step_frame; [|apply update_generator_frame].
      eapply reg_step_frame; [|exact H]. by apply reg_step_same.
    + eapply reg_step_frame; [|apply update_generator_frame]. by apply reg_step_same.
  - unfold terminate. destruct (worker w); [|by apply reg_step_same].
    apply reg_step_same; cbn; [done|apply map_empty_subseteq..].
Qed.

Lemma step_reg_step e w : reg_step w (step e w).
Proof. eapply reg_step_frame; [apply task_reg_step|apply drain_frame]. Qed.

(** *** Ids and registries *)

Lemma reg_step_NoDup w w' : reg_step w w' -> NoDup (generated w') -> NoDup (generated w).
Proof. intros (l & -> & _) Hnd. by apply NoDup_app in Hnd as [? _]. Qed.

Lemma reg_step_ok w w' :
  reg_step w w' -> NoDup (generated w') -> registries_ok w -> registries_ok w'.
Proof.
  intros (l & Hg & H) Hnd (Hp & Hs & Hd). unfold registries_ok. rewrite Hg in Hnd |- *.
  apply NoDup_app in Hnd as (_ & Hfresh & _).
  assert (forall id, id ∈ l -> ~ is_Some (pendingRequests w !! id)) as Hlp.
  { intros id Hin Hsome. eapply Hfresh; eauto. }
  assert (forall id, id ∈ l -> ~ is_Some (streamingRequests w !! id)) as Hls.
  { intros id Hin Hsome. eapply Hfresh; eauto. }
  setoid_rewrite elem_of_app.
  destruct H as [[Hp' Hs'] | [Hp' Hs']]; repeat split; intros id Hsome.
  - destruct (Hp' id Hsome) as [?|Hin]; [auto|by apply elem_of_nil in Hin].
  - destruct (Hs' id Hsome); auto.
  - destruct (Hp' id Hsome) as [Hold|Hin]; [|by apply elem_of_nil in Hin].
    apply eq_None_not_Some. intros Hs2. destruct (Hs' id Hs2) as [Hold2|Hin].
    + rewrite (Hd id Hold) in Hold2. by destruct Hold2.
    + by eapply Hlp.
  - destruct (Hp' id Hsome); auto.
  - destruct (Hs' id Hsome) as [?|Hin]; [auto|by apply elem_of_nil in Hin].
  - apply eq_None_not_Some. intros Hs2.
    destruct (Hs' id Hs2) as [Hold2|Hin]; [|by apply elem_of_nil in Hin].
    destruct (Hp' id Hsome) as [Hold|Hin].
    + rewrite (Hd id Hold) in Hold2. by destruct Hold2.
    + by eapply Hls.
Qed.

Lemma reg_step_retired X w w' :
  reg_step w w' -> NoDup (generated w') -> retired X w -> retired X w'.
Proof.
  intros (l & Hg & H) Hnd (Hin & Hp & Hs). unfold retired. rewrite Hg in Hnd |- *.
  apply NoDup_app in Hnd as (_ & Hfresh & _). specialize (Hfresh X Hin).
  assert (forall A (m' m : gmap string A) l',
             keys_within m' m l' -> m !! X = None -> (X ∈ l' -> False) ->
             m' !! X = None) as Hk.
  { intros A m' m l' Hkw Hnone Hnot. apply eq_None_not_Some. intros Hsome.
    destruct (Hkw X Hsome) as [Hold|?]; [|auto]. rewrite Hnone in Hold. by destruct Hold. }
  split; [apply elem_of_app; auto|].
  destruct H as [[Hp' Hs'] | [Hp' Hs']]; split; eapply Hk; eauto; by intros ?%elem_of_nil.
Qed.

Lemma run_cons e events w : run (e :: events) w = run events (step e w).
Proof. done. Qed.

Lemma run_app events1 events2 w : run (events1 ++ events2) w = run events2 (run events1 w).
Proof. apply foldl_app. Qed.

Lemma run_generated events w : exists l, generated (run events w) = generated w ++ l.
Proof.
  revert w. induction events as [|e events IH]; intros w.
  - exists []. by rewrite app_nil_r.
  - rewrite run_cons. destruct (IH (step e w)) as [l2 H2].
    destruct (step_reg_step e w) as (l1 & H1 & _).
    exists (l1 ++ l2). by rewrite H2, H1, app_assoc.
Qed.

Lemma run_NoDup events w : NoDup (generated (run events w)) -> NoDup (generated w).
Proof.
  destruct (run_generated events w) as [l ->]. intros Hnd.
  by apply NoDup_app in Hnd as [? _].
Qed.

Lemma run_ok events w :
  NoDup (generated (run events w)) -> registries_ok w -> registries_ok (run events w).
Proof.
  revert w. induction events as [|e events IH]; intros w Hnd Hok; [done|].
  rewrite run_cons in *. apply IH; [done|].
  eapply reg_step_ok; [apply step_reg_step| |done]. by eapply run_NoDup.
Qed.

Lemma run_retired X events w :
  NoDup (generated (run events w)) -> retired X w -> retired X (run events w).
Proof.
  revert w. induction events as [|e events IH]; intros w Hnd Hok; [done|].
  rewrite run_cons in *. apply IH; [done|].
  eapply reg_step_retired; [apply step_reg_step| |done]. by eapply run_NoDup.
Qed.

Lemma initial_ok : registries_ok initial.
Proof. repeat split; intros id [x Hx]; cbn in Hx; by rewrite lookup_empty in Hx. Qed.

Lemma handleMessage_unknown_id X m w :
  settles X m ->
  pendingRequests w !! X = None -> streamingRequests w !! X = None ->
  handleMessage m w = w.
Proof.
  intros [[v ->] | (c & msg & d & ->)] Hp Hs; cbn; by rewrite Hp, ?Hs.
Qed.

Lemma handleMessage_settles X m w entry :
  settles X m ->
  pendingRequests w !! X = Some entry -> streamingRequests w !! X = None ->
  effects (handleMessage m w) = effects w ++ settlement_of entry m.
Proof.
  intros [[v ->] | (c & msg & d & ->)] Hp Hs; cbn; rewrite Hp, ?Hs; cbn;
    by autorewrite with frame.
Qed.

(** *** Calls *)

Lemma handleMessage_other_id msg id w :
  response_id msg <> Some id ->
  pendingRequests (step (EvMessage msg) w) !! id = pendingRequests w !! id.
Proof.
  intros Hne. unfold step. cbn. rewrite (gf_pending _ _ (drain_frame _)).
  rewrite handleMessage_pending.
  destruct msg; try done; cbn in Hne; apply lookup_delete_ne; congruence.
Qed.

Lemma drain_promise w p s : promises w !! p = Some s -> promises (drain w) !! p = Some s.
Proof.
  intros H. destruct (gf_promises _ _ (drain_frame w)) as [l ->].
  by apply lookup_app_l_Some.
Qed.

Lemma call_ready fn payload options fresh w :
  worker w <> None -> initialized w = true ->
  let r := call fn payload options fresh w in
  let p := length (promises w) in
  r.1 = inr p /\
  promises r.2 = promises w ++ [Pending] /\
  pendingRequests r.2 =
    <[fresh := {| PendingRequest.resolve := ResolvePromise p;
                  PendingRequest.reject := RejectPromise p |}]> (pendingRequests w) /\
  worker r.2 = worker w /\ initialized r.2 = true /\
  exists transfer,
    effects r.2 = effects w ++
      [Registered PendingRegistry fresh; Posted (CallMsg fresh fn payload) transfer].
Proof.
  intros Hw Hi. unfold call. destruct (worker w) eqn:Hw'; [|done]. rewrite Hi. cbn.
  rewrite Hw'. repeat split; try done. eexists. by rewrite <- app_assoc.
Qed.

Lemma handleMessage_result_resolves id v p rj w :
  pendingRequests w !! id =
    Some {| PendingRequest.resolve := ResolvePromise p; PendingRequest.reject := rj |} ->
  promises w !! p = Some Pending ->
  let w' := step (EvMessage (ResultMsg id v)) w in
  promises w' !! p = Some (Fulfilled v) /\
  (forall q s, q <> p -> promises w !! q = Some s -> promises w' !! q = Some s) /\
  effects w' = effects w ++ [CalledResolve (ResolvePromise p) v] /\
  pendingRequests w' = delete id (pendingRequests w).
Proof.
  intros Hp Hq. cbn zeta. unfold step. cbn [task].
  rewrite (gf_effects _ _ (drain_frame _)), (gf_pending _ _ (drain_frame _)).
  rewrite handleMessage_pending.
  assert (promises (handleMessage (ResultMsg id v) w) = <[p := Fulfilled v]> (promises w))
    as Hpr.
  { cbn. rewrite Hp. cbn. unfold callResolve, settle. cbn. by rewrite Hq. }
  repeat split.
  - apply drain_promise. rewrite Hpr. apply list_lookup_insert_eq.
    by eapply lookup_lt_Some.
  - intros q s Hne Hs. apply drain_promise. rewrite Hpr.
    by rewrite list_lookup_insert_ne.
  - cbn. rewrite Hp. cbn. by autorewrite with frame.
Qed.

(** *** Teardown *)

Lemma gen_frame_idle_ok w w' : gen_frame w w' -> idle_ok w -> idle_ok w'.
Proof.
  intros [] Hok Hw. rewrite gf_worker0 in Hw. destruct (Hok Hw) as (Hp & Hs & Hi).
  rewrite gf_pending0, gf_initialized0. split; [done|]. split; [|done].
  rewrite Hs in gf_streaming0. apply map_empty. intros id.
  eapply lookup_weaken_None; [|exact gf_streaming0]. apply lookup_empty.
Qed.

Lemma handleMessage_idle msg w :
  pendingRequests w = ∅ -> streamingRequests w = ∅ -> handleMessage msg w = w.
Proof. intros Hp Hs. destruct msg; cbn; by rewrite ?Hp, ?Hs, ?lookup_empty. Qed.

Lemma stream_start_worker fn payload fresh w :
  worker (stream_start fn payload fresh w).2 = worker w.
Proof.
  unfold stream_start. destruct (worker w) eqn:Hw; [|done].
  destruct (negb (initialized w)); [done|]. cbn.
  by rewrite (gf_worker _ _ (stream_loop_frame _ _ _ _)).
Qed.

Lemma stream_start_idle fn payload fresh w st obs w' :
  stream_start fn payload fresh w = (st, obs, w') -> worker w = None -> w' = w.
Proof. unfold stream_start. intros H Hw. rewrite Hw in H. congruence. Qed.

Lemma task_idle_ok e w : idle_ok w -> idle_ok (task e w).
Proof.
  intros Hok.
  destruct e as [spawn_failure options fresh|message|msg|fn payload options fresh
                |fn payload|g fresh|]; cbn.
  - destruct spawn_failure; cbn; [|by intros ?].
    intros Hw. autorewrite with frame in *. cbn in *. auto.
  - unfold handleWorkerError. destruct (worker w) eqn:Hw; [|done].
    intros Hw'. autorewrite with frame in Hw'. congruence.
  - intros Hw. rewrite handleMessage_worker in Hw. destruct (Hok Hw) as (Hp & Hs & Hi).
    by rewrite handleMessage_idle.
  - unfold call. destruct (worker w) eqn:Hw; [|done].
    destruct (negb (initialized w)); cbn; intros Hw'; cbn in Hw'; congruence.
  - done.
  - unfold next. destruct (generators w !! g) as [gen|]; [|done].
    destruct (gen_state gen).
    + destruct (stream_start _ _ _ _) as [[st obs] w1] eqn:Hst.
      eapply gen_frame_idle_ok; [apply update_generator_frame|].
      intros Hw1. pose proof (stream_start_worker (gen_fn gen) (gen_payload gen) fresh w) as Hw.
      rewrite Hst in Hw. cbn in Hw. rewrite Hw1 in Hw. symmetry in Hw.
      rewrite (stream_start_idle _ _ _ _ _ _ _ Hst Hw). auto.
    + by eapply gen_frame_idle_ok; [apply update_generator_frame|].
    + pose proof (stream_loop_frame 0 id request w) as H.
      destruct (stream_loop 0 id request w) as [[st obs] w1]. cbn in H.
      eapply gen_frame_idle_ok; [apply update_generator_frame|].
      by eapply gen_frame_idle_ok.
    + by eapply gen_frame_idle_ok; [apply update_generator_frame|].
  - unfold terminate. by destruct (worker w) eqn:Hw.
Qed.

Lemma run_idle_ok events w : idle_ok w -> idle_ok (run events w).
Proof.
  revert w. induction events as [|e events IH]; intros w Hok; [done|].
  rewrite run_cons. apply IH. unfold step.
  eapply gen_frame_idle_ok; [apply drain_frame|by apply task_idle_ok].
Qed.

Lemma initial_idle_ok : idle_ok initial.
Proof. done. Qed.

(** *** Registration comes before posting *)

Lemma registered_before_posted_app l1 l2 :
  registered_before_posted l1 -> registered_before_posted l2 ->
  registered_before_posted (l1 ++ l2).
Proof.
  intros H1 H2 i m transfer Hi. apply lookup_app_Some in Hi as [Hi | [Hlen Hi]].
  - destruct (H1 i m transfer Hi) as (j & -> & Hj). exists j. split; [done|].
    by apply lookup_app_l_Some.
  - destruct (H2 _ m transfer Hi) as (j & Hij & Hj). exists (length l1 + j). split; [lia|].
    by rewrite lookup_app_r, Nat.add_comm, Nat.add_sub by lia.
Qed.

Lemma no_posting_registered l : no_posting l -> registered_before_posted l.
Proof. intros H i m transfer Hi. destruct (H m transfer). by eapply list_elem_of_lookup_2. Qed.

Lemma registered_then_posted m transfer :
  registered_before_posted [Registered (owner m) (request_id m); Posted m transfer].
Proof.
  intros [|[|i]] m' transfer' Hi; cbn in Hi; try done.
  injection Hi as <- <-. by exists 0.
Qed.

Lemma no_posting_nil : no_posting [].
Proof. intros m transfer. apply not_elem_of_nil. Qed.

Lemma adds_nil w w' : effects w' = effects w -> adds w w' [].
Proof. unfold adds. intros ->. by rewrite app_nil_r. Qed.

Lemma handleMessage_no_posting msg w :
  exists chunk, adds w (handleMessage msg w) chunk /\ no_posting chunk.
Proof.
  unfold adds. handleMessage_cases msg; rewrite <- ?app_assoc;
    (eexists; split; [try reflexivity; by rewrite app_nil_r|]);
    intros m transfer Hin; repeat (apply elem_of_cons in Hin as [Hin|Hin]; [done|]);
    by apply elem_of_nil in Hin.
Qed.

Lemma stream_start_effects fn payload fresh w :
  exists chunk, adds w (stream_start fn payload fresh w).2 chunk /\
                registered_before_posted chunk.
Proof.
  unfold stream_start. destruct (worker w).
  2: { exists []. split; [by apply adds_nil|]. apply no_posting_registered, no_posting_nil. }
  destruct (negb (initialized w)).
  { exists []. split; [by apply adds_nil|]. apply no_posting_registered, no_posting_nil. }
  cbn. exists [Registered StreamingRegistry fresh; Posted (StreamOpenMsg fresh fn payload) []].
  split; [|apply (registered_then_posted (StreamOpenMsg fresh fn payload))].
  unfold adds. rewrite (gf_effects _ _ (stream_loop_frame _ _ _ _)). cbn.
  by rewrite <- app_assoc.
Qed.

Lemma task_effects e w :
  exists chunk, adds w (task e w) chunk /\ registered_before_posted chunk.
Proof.
  assert (forall w', effects w' = effects w ->
            exists chunk, adds w w' chunk /\ registered_before_posted chunk) as Hsame.
  { intros w' H. exists []. split; [by apply adds_nil|].
    apply no_posting_registered, no_posting_nil. }
  assert (forall e0, registered_before_posted [e0] \/ exists m t, e0 = Posted m t) as Hone.
  { intros e0. destruct e0; eauto; left; apply no_posting_registered;
      intros m t Hin; apply list_elem_of_singleton in Hin; done. }
  destruct e as [spawn_failure options fresh|message|msg|fn payload options fresh
                |fn payload|g fresh|]; cbn.
  - destruct spawn_failure; cbn.
    + eexists. split; [unfold adds; by autorewrite with frame|].
      by destruct (Hone (CalledReject (RejectPromise (length (promises w)))
                  (Error ("Failed to create worker: " +:+ errorMsg_of t)))) as [?|(?&?&?)].
    + eexists. split; [unfold adds; cbn; by rewrite <- app_assoc|].
      apply (registered_then_posted
               (InitMsg fresh (LoadOptions.moduleUrl options) (LoadOptions.init options))).
  - unfold handleWorkerError. destruct (worker w); [|by apply Hsame].
    eexists. split; [unfold adds; by autorewrite with frame|].
    by destruct (Hone (CalledReject (onerror w0) (Error ("Worker error: " +:+ message))))
      as [?|(?&?&?)].
  - destruct (handleMessage_no_posting msg w) as (chunk & Ha & Hn).
    exists chunk. split; [done|by apply no_posting_registered].
  - unfold call. destruct (worker w); [|by apply Hsame].
    destruct (negb (initialized w)); [by apply Hsame|]. cbn.
    eexists. split; [unfold adds; cbn; by rewrite <- app_assoc|].
    apply (registered_then_posted (CallMsg fresh fn payload)).
  - by apply Hsame.
  - unfold next. destruct (generators w !! g) as [gen|]; [|by apply Hsame].
    destruct (gen_state gen).
    + destruct (stream_start_effects (gen_fn gen) (gen_payload gen) fresh w)
        as (chunk & Ha & Hr).
      destruct (stream_start _ _ _ _) as [[st obs] w1]. cbn in Ha.
      exists chunk. split; [|done]. unfold adds in *.
      by rewrite (gf_effects _ _ (update_generator_frame _ _ _ _)).
    + apply Hsame. by rewrite (gf_effects _ _ (update_generator_frame _ _ _ _)).
    + pose proof (stream_loop_frame 0 id request w) as H.
      destruct (stream_loop 0 id request w) as [[st obs] w1]. cbn in H.
      apply Hsame. rewrite (gf_effects _ _ (update_generator_frame _ _ _ _)).
      apply (gf_effects _ _ H).
    + apply Hsame. by rewrite (gf_effects _ _ (update_generator_frame _ _ _ _)).
  - unfold terminate. destruct (worker w); [|by apply Hsame].
    eexists. split; [unfold adds; cbn; reflexivity|].
    by destruct (Hone Terminated) as [?|(?&?&?)].
Qed.

Lemma run_registered_before_posted events w :
  registered_before_posted (effects w) ->
  registered_before_posted (effects (run events w)).
Proof.
  revert w. induction events as [|e events IH]; intros w Hw; [done|].
  rewrite run_cons. apply IH. unfold step.
  rewrite (gf_effects _ _ (drain_frame _)).
  destruct (task_effects e w) as (chunk & -> & Hr).
  by apply registered_before_posted_app.
Qed.

(** *** Streams *)

Lemma callResolve_generators f v w : generators (callResolve f v w) = generators w.
Proof. unfold callResolve, settle; repeat case_match; done. Qed.
Lemma callReject_generators f e w : generators (callReject f e w) = generators w.
Proof. unfold callReject, settle; repeat case_match; done. Qed.
Lemma shift_generators r w : generators (shift r w).2 = generators w.
Proof. unfold shift; by case_match. Qed.
#[local] Hint Rewrite callResolve_generators callReject_generators shift_generators : frame.

Lemma deref_queue_empty request w :
  queues_empty w -> StreamingRequest.queue (deref request w) = [].
Proof.
  intros H. unfold deref. destruct (heap w !! request) as [r|] eqn:Hr.
  - rewrite (list_lookup_total_correct _ _ _ Hr).
    by apply (proj1 (Forall_lookup _ _) H request r).
  - by rewrite list_lookup_total_alt, Hr.
Qed.

Lemma assign_queues_empty request r w :
  queues_empty w -> StreamingRequest.queue r = [] -> queues_empty (assign request r w).
Proof. intros H Hr. unfold queues_empty, assign. cbn. by apply Forall_insert. Qed.

Lemma push_shift_queues_empty request v w :
  queues_empty w -> queues_empty (shift request (push request v w)).2.
Proof.
  intros H. pose proof (deref_queue_empty request w H) as Hq.
  unfold shift, push, deref in *. cbn.
  destruct (decide (request < length (heap w))) as [Hlt|Hge].
  - rewrite list_lookup_total_insert_eq by done. cbn. rewrite Hq. cbn.
    unfold queues_empty. cbn. rewrite list_insert_insert_eq. by apply Forall_insert.
  - rewrite list_insert_ge by lia. rewrite Hq. cbn.
    unfold queues_empty. cbn. by rewrite list_insert_ge by lia.
Qed.

Lemma handleMessage_queues_empty msg w :
  queues_empty w -> queues_empty (handleMessage msg w).
Proof.
  intros H.
  assert (forall w', heap w' = heap w -> queues_empty w') as Hsame.
  { unfold queues_empty. by intros w' ->. }
  destruct msg; cbn; try done.
  - case_match; [|done]. apply Hsame. cbn. by autorewrite with frame.
  - repeat case_match; try done; apply Hsame; cbn; autorewrite with frame; cbn;
      by autorewrite with frame.
  - case_match; [|done]. pose proof (push_shift_queues_empty n value w H) as Hps.
    destruct (shift n (push n value w)) as [x w1]. cbn in Hps.
    unfold queues_empty in *. by autorewrite with frame.
  - case_match; [|done]. unfold queues_empty. cbn. autorewrite with frame.
    apply assign_queues_empty; [done|]. cbn. by apply deref_queue_empty.
Qed.

Lemma handleMessage_generators msg w : generators (handleMessage msg w) = generators w.
Proof. handleMessage_cases msg; done. Qed.

Lemma stream_loop_empty queued id request w :
  queues_empty w ->
  let r := stream_loop queued id request w in
  queues_empty r.2 /\ generators r.2 = generators w /\
  (forall v, Yielded v ∉ r.1.2).
Proof.
  intros H. cbn zeta. rewrite stream_loop_eq. cbn zeta.
  rewrite (deref_queue_empty request w H). cbn [length Nat.ltb Nat.leb].
  destruct (negb _ || false); cbn.
  - split; [|split; [done|intros v; apply not_elem_of_nil]].
    apply assign_queues_empty; [done|]. cbn. unfold deref. cbn. by apply deref_queue_empty.
  - split; [done|]. split; [done|]. intros v Hin.
    apply elem_of_cons in Hin as [?|Hin]; [done|].
    by apply elem_of_replicate in Hin as [? _].
Qed.

Lemma update_generator_nothing_yielded g st obs w :
  nothing_yielded w -> (forall v, Yielded v ∉ obs) ->
  nothing_yielded (update_generator g st obs w).
Proof.
  intros H Hobs. unfold update_generator. destruct (generators w !! g) as [gen|] eqn:Hg; [|done].
  intros g' gen' v Hg'. cbn in Hg'.
  apply list_lookup_insert_Some in Hg' as [(-> & <- & _) | [_ Hg']]; [|by eapply H].
  cbn. intros [Hin|Hin]%elem_of_app; [by eapply H|by eapply Hobs].
Qed.

Lemma update_generator_queues_empty g st obs w :
  queues_empty w -> queues_empty (update_generator g st obs w).
Proof. unfold update_generator. by destruct (generators w !! g). Qed.

Lemma stream_ok_same w w' :
  heap w' = heap w -> generators w' = generators w -> stream_ok w -> stream_ok w'.
Proof. unfold stream_ok, queues_empty, nothing_yielded. by intros -> ->. Qed.

Lemma stream_ok_loop queued id request g w :
  stream_ok w ->
  stream_ok (let '(st, obs, w1) := stream_loop queued id request w in
             update_generator g st obs w1).
Proof.
  intros [Hq Hy]. destruct (stream_loop_empty queued id request w Hq) as (Hq1 & Hg1 & Hobs).
  destruct (stream_loop queued id request w) as [[st obs] w1]. cbn in *. split.
  - by apply update_generator_queues_empty.
  - apply update_generator_nothing_yielded; [|done].
    unfold nothing_yielded. by rewrite Hg1.
Qed.

Lemma no_yield_failed e n v : Yielded v ∉ Failed e :: replicate n Finished.
Proof.
  intros Hin. apply elem_of_cons in Hin as [?|Hin]; [done|].
  by apply elem_of_replicate in Hin as [? _].
Qed.

Lemma resume_stream_ok g w : stream_ok w -> stream_ok (resume g w).
Proof.
  intros Hok. unfold resume. destruct (generators w !! g) as [gen|]; [|done].
  destruct (gen_state gen); try done.
  destruct (promises w !! p) as [[]|]; try done.
  - by apply stream_ok_loop.
  - destruct Hok as [Hq Hy]. split.
    + by apply update_generator_queues_empty.
    + apply update_generator_nothing_yielded; [done|]. intros v. apply no_yield_failed.
Qed.

Lemma drain_stream_ok w : stream_ok w -> stream_ok (drain w).
Proof.
  unfold drain. generalize (seq 0 (length (generators w))). intros l.
  revert w. induction l as [|g l IH]; intros w Hok; cbn; [done|].
  by apply IH, resume_stream_ok.
Qed.

Lemma task_stream_ok e w : stream_ok w -> stream_ok (task e w).
Proof.
  intros Hok.
  destruct e as [spawn_failure options fresh|message|msg|fn payload options fresh
                |fn payload|g fresh|]; cbn.
  - destruct spawn_failure; cbn; (eapply stream_ok_same; [| |done]);
      by autorewrite with frame.
  - unfold handleWorkerError. destruct (worker w); [|done].
    eapply stream_ok_same; [| |done]; by autorewrite with frame.
  - destruct Hok as [Hq Hy]. split; [by apply handleMessage_queues_empty|].
    unfold nothing_yielded. by rewrite handleMessage_generators.
  - unfold call. destruct (worker w); [|done].
    destruct (negb (initialized w)); [done|]. by eapply stream_ok_same.
  - destruct Hok as [Hq Hy]. split; [done|]. intros g gen v Hg. cbn in Hg.
    apply lookup_app_Some in Hg as [Hg | [_ Hg]]; [by eapply Hy|].
    apply list_lookup_singleton_Some in Hg as [_ <-]. cbn. apply not_elem_of_nil.
  - unfold next. destruct (generators w !! g) as [gen|] eqn:Hg; [|done].
    destruct (gen_state gen).
    + unfold stream_start. destruct (worker w).
      2: { destruct Hok. split; [by apply update_generator_queues_empty|].
           apply update_generator_nothing_yielded; [done|].
           intros v. apply (no_yield_failed _ 0). }
      destruct (negb (initialized w)).
      { destruct Hok. split; [by apply update_generator_queues_empty|].
        apply update_generator_nothing_yielded; [done|].
        intros v. apply (no_yield_failed _ 0). }
      cbn. apply stream_ok_loop. destruct Hok as [Hq Hy]. split; [|done].
      unfold queues_empty. cbn. apply Forall_app. split; [done|]. by constructor.
    + destruct Hok. split; [by apply update_generator_queues_empty|].
      apply update_generator_nothing_yielded; [done|]. intros v. apply not_elem_of_nil.
    + by apply stream_ok_loop.
    + destruct Hok. split; [by apply update_generator_queues_empty|].
      apply update_generator_nothing_yielded; [done|]. intros v Hin.
      by apply list_elem_of_singleton in Hin.
  - unfold terminate. by destruct (worker w).
Qed.

Lemma run_stream_ok events w : stream_ok w -> stream_ok (run events w).
Proof.
  revert w. induction events as [|e events IH]; intros w Hok; [done|].
  rewrite run_cons. apply IH. unfold step. by apply drain_stream_ok, task_stream_ok.
Qed.

(** Whatever the events, no consumer of a stream is ever given a chunk. *)
Lemma no_chunk_reaches_a_consumer events g gen v :
  generators (run events initial) !! g = Some gen -> Yielded v ∉ observed gen.
Proof.
  intros Hg. destruct (run_stream_ok events initial) as [_ Hy]; [|by eapply Hy].
  split; [by constructor|]. intros g' gen' v' Hg'. by cbn in Hg'.
Qed.

(** *** A settled promise stays as it is *)

Lemma keeps_settled_refl w : keeps_settled w w.
Proof. by intros p s. Qed.

Lemma keeps_settled_trans w1 w2 w3 :
  keeps_settled w1 w2 -> keeps_settled w2 w3 -> keeps_settled w1 w3.
Proof. intros H1 H2 p s Hp Hs. apply H2; [|done]. by apply H1. Qed.

Lemma keeps_settled_same w w' : promises w' = promises w -> keeps_settled w w'.
Proof. intros H p s. by rewrite H. Qed.

Lemma keeps_settled_frame w w' : gen_frame w w' -> keeps_settled w w'.
Proof. intros [_ _ _ _ _ [l Hl] _] p s Hp _. rewrite Hl. by apply lookup_app_l_Some. Qed.

Lemma settle_keeps p s w : keeps_settled w (settle p s w).
Proof.
  intros q s' Hq Hs'. unfold settle. destruct (promises w !! p) as [[]|] eqn:Hp; try done.
  cbn. rewrite list_lookup_insert_ne; [done|]. intros <-. congruence.
Qed.

Lemma callResolve_keeps f v w : keeps_settled w (callResolve f v w).
Proof.
  unfold callResolve. destruct f; [by apply keeps_settled_same|..];
    (eapply keeps_settled_trans; [|apply settle_keeps]); by apply keeps_settled_same.
Qed.

Lemma callReject_keeps f e w : keeps_settled w (callReject f e w).
Proof.
  unfold callReject. destruct f; [by apply keeps_settled_same|].
  eapply keeps_settled_trans; [|apply settle_keeps]. by apply keeps_settled_same.
Qed.

Ltac keeps :=
  lazymatch goal with
  | |- keeps_settled ?w ?w => apply keeps_settled_refl
  | |- keeps_settled _ (pendingDelete _ ?x) =>
      apply (keeps_settled_trans _ x); [keeps|by apply keeps_settled_same]
  | |- keeps_settled _ (streamingDelete _ ?x) =>
      apply (keeps_settled_trans _ x); [keeps|by apply keeps_settled_same]
  | |- keeps_settled _ (push _ _ ?x) =>
      apply (keeps_settled_trans _ x); [keeps|by apply keeps_settled_same]
  | |- keeps_settled _ (markDone _ ?x) =>
      apply (keeps_settled_trans _ x); [keeps|by apply keeps_settled_same]
  | |- keeps_settled _ (callResolve _ _ ?x) =>
      apply (keeps_settled_trans _ x); [keeps|apply callResolve_keeps]
  | |- keeps_settled _ (callReject _ _ ?x) =>
      apply (keeps_settled_trans _ x); [keeps|apply callReject_keeps]
  | |- keeps_settled _ (shift ?r ?x).2 =>
      apply (keeps_settled_trans _ x); [keeps|apply keeps_settled_frame, shift_frame]
  end.

Lemma handleMessage_keeps msg w : keeps_settled w (handleMessage msg w).
Proof.
  destruct msg; unfold handleMessage; cbn beta iota zeta; repeat case_match; shift_snd;
    keeps.
Qed.

Lemma update_generator_promises g st obs w :
  promises (update_generator g st obs w) = promises w.
Proof. unfold update_generator. by destruct (generators w !! g). Qed.

Lemma task_keeps e w : keeps_settled w (task e w).
Proof.
  destruct e as [spawn_failure options fresh|message|msg|fn payload options fresh
                |fn payload|g fresh|]; cbn.
  - destruct spawn_failure; cbn.
    + eapply keeps_settled_trans; [|apply callReject_keeps].
      apply (keeps_settled_frame _ _ (gen_frame_newPromise w)).
    + intros p s Hp _. cbn. by apply lookup_app_l_Some.
  - unfold handleWorkerError. destruct (worker w); [apply callReject_keeps|apply keeps_settled_refl].
  - apply handleMessage_keeps.
  - unfold call. destruct (worker w); [|apply keeps_settled_refl].
    destruct (negb (initialized w)); [apply keeps_settled_refl|]. cbn.
    intros p s Hp _. cbn. by apply lookup_app_l_Some.
  - by apply keeps_settled_same.
  - unfold next. destruct (generators w !! g) as [gen|]; [|apply keeps_settled_refl].
    destruct (gen_state gen).
    + unfold stream_start. destruct (worker w); [|by apply keeps_settled_same, update_generator_promises].
      destruct (negb (initialized w)); [by apply keeps_settled_same, update_generator_promises|].
      cbn. match goal with |- context [stream_loop ?q ?i ?r ?x] =>
        pose proof (stream_loop_frame q i r x) as H;
        destruct (stream_loop q i r x) as [[st obs] w1] end.
      cbn in H. eapply keeps_settled_trans; [|apply keeps_settled_same, update_generator_promises].
      eapply keeps_settled_trans; [|apply keeps_settled_frame, H]. by apply keeps_settled_same.
    + by apply keeps_settled_same, update_generator_promises.
    + pose proof (stream_loop_frame 0 id request w) as H.
      destruct (stream_loop 0 id request w) as [[st obs] w1]. cbn in H.
      eapply keeps_settled_trans; [|apply keeps_settled_same, update_generator_promises].
      by apply keeps_settled_frame.
    + by apply keeps_settled_same, update_generator_promises.
  - unfold terminate. destruct (worker w); by apply keeps_settled_same.
Qed.

Lemma run_keeps events w : keeps_settled w (run events w).
Proof.
  revert w. induction events as [|e events IH]; intros w; [apply keeps_settled_refl|].
  rewrite run_cons. eapply keeps_settled_trans; [|apply IH]. unfold step.
  eapply keeps_settled_trans; [apply task_keeps|apply keeps_settled_frame, drain_frame].
Qed.
(** *** Microtasks *)

Lemma resume_quiet g w : awaits_pending w g -> resume g w = w.
Proof.
  intros H. unfold resume. destruct (generators w !! g) as [gen|] eqn:Hg; [|done].
  destruct (gen_state gen) eqn:Hst; try done.
  by rewrite (H gen id request p queued Hg Hst).
Qed.

Lemma drain_quiet w : quiet w -> drain w = w.
Proof.
  intros H. unfold drain. generalize (seq 0 (length (generators w))). intros l.
  induction l as [|g l IH]; cbn; [done|]. by rewrite resume_quiet.
Qed.

Lemma quiet_existing w : quiet w -> awaits_existing w.
Proof. intros H g gen id request p queued Hg Hst. eapply lookup_lt_Some, H; eauto. Qed.

Lemma stream_loop_state queued id request w :
  let r := stream_loop queued id request w in
  generators r.2 = generators w /\
  (forall id' request' p' queued',
     r.1.1 = AwaitingChunk id' request' p' queued' -> promises r.2 !! p' = Some Pending).
Proof.
  revert w. induction queued as [|queued IH]; intros w; cbn zeta; rewrite stream_loop_eq;
    cbn zeta; (destruct (negb _ || _); [destruct (Nat.ltb 0 _)|]).
  - pose proof (shift_generators request w). destruct (shift request w) as [x w1]. by cbn in *.
  - cbn. split; [done|]. intros ???? [= <- <- <- <-]. by apply list_lookup_middle.
  - by cbn.
  - pose proof (shift_generators request w) as Hs. destruct (shift request w) as [x w1].
    specialize (IH w1). destruct (stream_loop queued id request w1) as [[st obs] w2].
    cbn in *. destruct IH as [IH1 IH2]. split; [congruence|done].
  - cbn. split; [done|]. intros ???? [= <- <- <- <-]. by apply list_lookup_middle.
  - by cbn.
Qed.

Lemma gen_frame_lookup w w' p s :
  gen_frame w w' -> promises w !! p = Some s -> promises w' !! p = Some s.
Proof. intros [_ _ _ _ _ [l ->] _] H. by apply lookup_app_l_Some. Qed.

Lemma gen_frame_length w w' :
  gen_frame w w' -> length (promises w) <= length (promises w').
Proof. intros [_ _ _ _ _ [l ->] _]. rewrite length_app. lia. Qed.

(** Running the loop for generator [g] and recording where it stops. *)
Lemma loop_update_spec queued id request g w gen0 :
  generators w !! g = Some gen0 ->
  let w' := (let '(st, obs, w1) := stream_loop queued id request w in
             update_generator g st obs w1) in
  awaits_pending w' g /\
  (forall g', g' <> g -> generators w' !! g' = generators w !! g') /\
  (forall p s, promises w !! p = Some s -> promises w' !! p = Some s) /\
  length (promises w) <= length (promises w').
Proof.
  intros Hg. cbn zeta.
  pose proof (stream_loop_frame queued id request w) as Hf.
  destruct (stream_loop_state queued id request w) as [Hgen Hst].
  destruct (stream_loop queued id request w) as [[st obs] w1]. cbn in *.
  unfold update_generator. rewrite Hgen, Hg. cbn. split_and!.
  - intros gen id' request' p' queued' Hg' Hst'. cbn in Hg'.
    rewrite list_lookup_insert_eq in Hg' by (by eapply lookup_lt_Some).
    injection Hg' as <-. cbn in Hst'. by eapply Hst.
  - intros g' Hne. cbn. by rewrite list_lookup_insert_ne.
  - intros p s Hp. cbn. by eapply gen_frame_lookup.
  - cbn. by apply gen_frame_length.
Qed.

Lemma resume_spec g w :
  awaits_existing w ->
  let w' := resume g w in
  awaits_pending w' g /\
  (forall g', g' <> g -> generators w' !! g' = generators w !! g') /\
  (forall p s, promises w !! p = Some s -> promises w' !! p = Some s) /\
  length (promises w) <= length (promises w').
Proof.
  intros Hex. cbn zeta. unfold resume.
  destruct (generators w !! g) as [gen|] eqn:Hg.
  2: { split_and!; try done. intros gen ????. by rewrite Hg. }
  destruct (gen_state gen) eqn:Hst.
  1,3,4: split_and!; try done; intros gen' ???? Hg' Hst'; congruence.
  destruct (promises w !! p) as [[]|] eqn:Hp.
  - split_and!; try done. intros gen' ???? Hg' Hst'. congruence.
  - by apply (loop_update_spec queued id request g w gen Hg).
  - unfold update_generator. cbn. rewrite Hg. cbn. split_and!; try done.
    + intros gen' ???? Hg' Hst'. cbn in Hg'.
      rewrite list_lookup_insert_eq in Hg' by (by eapply lookup_lt_Some).
      by injection Hg' as <-.
    + intros g' Hne. cbn. by rewrite list_lookup_insert_ne.
  - pose proof (Hex g gen id request p queued Hg Hst) as Hlt.
    apply lookup_lt_is_Some in Hlt as [s Hs]. congruence.
Qed.

Lemma resume_existing g w : awaits_existing w -> awaits_existing (resume g w).
Proof.
  intros Hex. destruct (resume_spec g w Hex) as (Hg & Hother & _ & Hlen).
  intros g' gen id request p queued Hg' Hst'.
  destruct (decide (g' = g)) as [->|Hne].
  - eapply lookup_lt_Some, Hg; eauto.
  - rewrite Hother in Hg' by done. pose proof (Hex _ _ _ _ _ _ Hg' Hst'). lia.
Qed.

Lemma resume_others g g' w :
  awaits_existing w -> awaits_pending w g' -> awaits_pending (resume g w) g'.
Proof.
  intros Hex Hok. destruct (resume_spec g w Hex) as (Hg & Hother & Hkeep & _).
  destruct (decide (g' = g)) as [->|Hne]; [done|].
  intros gen id request p queued Hg' Hst'. rewrite Hother in Hg' by done.
  eapply Hkeep, Hok; eauto.
Qed.

Lemma foldl_resume l w :
  awaits_existing w ->
  let w' := foldl (fun w g => resume g w) w l in
  awaits_existing w' /\
  (forall g, g ∈ l \/ awaits_pending w g -> awaits_pending w' g).
Proof.
  revert w. induction l as [|g0 l IH]; intros w Hex; cbn.
  - split; [done|]. intros g [Hin|?]; [by apply elem_of_nil in Hin|done].
  - destruct (IH (resume g0 w) (resume_existing g0 w Hex)) as [IH1 IH2].
    split; [done|]. intros g [Hin|Hok]; apply IH2.
    + apply elem_of_cons in Hin as [->|Hin]; [right|by left].
      by apply (resume_spec g0 w Hex).
    + right. by apply resume_others.
Qed.

Lemma drain_establishes w : awaits_existing w -> quiet (drain w).
Proof.
  intros Hex g. unfold drain.
  destruct (foldl_resume (seq 0 (length (generators w))) w Hex) as [_ H].
  apply H. destruct (decide (g < length (generators w))) as [Hlt|Hge].
  - left. apply elem_of_seq. lia.
  - right. intros gen ???? Hg. apply lookup_lt_Some in Hg. lia.
Qed.

Lemma settle_length p s w : length (promises (settle p s w)) = length (promises w).
Proof. unfold settle. repeat case_match; try done. cbn. apply length_insert. Qed.
Lemma callResolve_length f v w :
  length (promises (callResolve f v w)) = length (promises w).
Proof. unfold callResolve. destruct f; by rewrite ?settle_length. Qed.
Lemma callReject_length f e w :
  length (promises (callReject f e w)) = length (promises w).
Proof. unfold callReject. destruct f; by rewrite ?settle_length. Qed.
#[local] Hint Rewrite callResolve_length callReject_length : frame.

Lemma handleMessage_length msg w :
  length (promises (handleMessage msg w)) = length (promises w).
Proof. handleMessage_cases msg; done. Qed.

Lemma existing_same w w' :
  generators w' = generators w -> length (promises w) <= length (promises w') ->
  awaits_existing w -> awaits_existing w'.
Proof.
  intros Hg Hl Hex g gen id request p queued Hg' Hst'. rewrite Hg in Hg'.
  pose proof (Hex _ _ _ _ _ _ Hg' Hst'). lia.
Qed.

Lemma update_generator_existing g st obs w :
  awaits_existing w ->
  (forall id request p queued, st = AwaitingChunk id request p queued ->
                               p < length (promises w)) ->
  awaits_existing (update_generator g st obs w).
Proof.
  intros Hex Hst. unfold update_generator. destruct (generators w !! g) as [gen0|] eqn:Hg0; [|done].
  intros g' gen id request p queued Hg' Hst'. cbn in *.
  apply list_lookup_insert_Some in Hg' as [(-> & <- & _) | [_ Hg']].
  - cbn in Hst'. eauto.
  - eauto.
Qed.

Lemma loop_update_existing queued id request g w :
  awaits_existing w ->
  awaits_existing (let '(st, obs, w1) := stream_loop queued id request w in
                   update_generator g st obs w1).
Proof.
  intros Hex. destruct (generators w !! g) as [gen0|] eqn:Hg.
  - destruct (loop_update_spec queued id request g w gen0 Hg) as (Hok & Hother & _ & Hlen).
    intros g' gen id' request' p' queued' Hg' Hst'.
    destruct (decide (g' = g)) as [->|Hne].
    + eapply lookup_lt_Some, Hok; eauto.
    + rewrite Hother in Hg' by done. pose proof (Hex _ _ _ _ _ _ Hg' Hst'). lia.
  - pose proof (stream_loop_frame queued id request w) as Hf.
    destruct (stream_loop_state queued id request w) as [Hgen _].
    destruct (stream_loop queued id request w) as [[st obs] w1]. cbn in *.
    unfold update_generator. rewrite Hgen, Hg.
    eapply existing_same; [done|by apply gen_frame_length|done].
Qed.

Lemma task_existing e w : awaits_existing w -> awaits_existing (task e w).
Proof.
  intros Hex.
  destruct e as [spawn_failure options fresh|message|msg|fn payload options fresh
                |fn payload|g fresh|]; cbn.
  - destruct spawn_failure; cbn.
    + eapply existing_same; [| |done]; autorewrite with frame; cbn; [done|].
      rewrite length_app. lia.
    + eapply existing_same; [| |done]; cbn; [done|]. rewrite length_app. lia.
  - unfold handleWorkerError. destruct (worker w); [|done].
    eapply existing_same; [| |done]; by autorewrite with frame.
  - eapply existing_same; [apply handleMessage_generators| |done].
    by rewrite handleMessage_length.
  - unfold call. destruct (worker w); [|done].
    destruct (negb (initialized w)); [done|]. cbn.
    eapply existing_same; [| |done]; cbn; [done|]. rewrite length_app. lia.
  - intros g gen id request p queued Hg Hst. cbn in Hg.
    apply lookup_app_Some in Hg as [Hg | [_ Hg]]; [by eapply Hex|].
    apply list_lookup_singleton_Some in Hg as [_ <-]. done.
  - unfold next. destruct (generators w !! g) as [gen|] eqn:Hg; [|done].
    destruct (gen_state gen) eqn:Hst.
    + unfold stream_start. destruct (worker w); [|by apply update_generator_existing].
      destruct (negb (initialized w)); [by apply update_generator_existing|].
      cbn. apply loop_update_existing. by eapply existing_same.
    + apply update_generator_existing; [done|]. intros ???? [= <- <- <- <-]. by eapply Hex.
    + by apply loop_update_existing.
    + by apply update_generator_existing.
  - unfold terminate. destruct (worker w); [|done]. by eapply existing_same.
Qed.

Lemma step_quiet e w : quiet w -> quiet (step e w).
Proof. intros H. by apply drain_establishes, task_existing, quiet_existing. Qed.

Lemma run_quiet events w : quiet w -> quiet (run events w).
Proof.
  revert w. induction events as [|e events IH]; intros w H; [done|].
  rewrite run_cons. by apply IH, step_quiet.
Qed.

Lemma initial_quiet : quiet initial.
Proof. intros g gen ???? Hg. by cbn in Hg. Qed.

(** ** The properties of the Controller *)

(** C1.  When a [result] or [error] message for the id [X] finds a pending
    entry for [X], that one step calls the callback of the entry once and
    removes the entry.  As long as [generateId] never gives the same id
    twice, whatever happens afterwards, a later [result] or [error] message
    with the id [X] finds no entry: [handleMessage] calls nothing, settles
    nothing and leaves the registries, and the rest of the state, as they
    were, and no microtask follows.  A promise that is settled is never
    changed again. *)
Theorem pending_settled_at_most_once events1 events2 X entry m1 m2 :
  let w1 := run events1 initial in
  let w2 := step (EvMessage m1) w1 in
  let w3 := run events2 w2 in
  pendingRequests w1 !! X = Some entry ->
  settles X m1 -> settles X m2 ->
  NoDup (generated w3) ->
  effects w2 = effects w1 ++ settlement_of entry m1 /\
  pendingRequests w2 !! X = None /\
  handleMessage m2 w3 = w3 /\
  step (EvMessage m2) w3 = w3 /\
  (forall p s, promises w2 !! p = Some s -> s <> Pending -> promises w3 !! p = Some s).
Proof.
  intros w1 w2 w3 Hentry Hm1 Hm2 Hnd.
  assert (NoDup (generated w2)) as Hnd2 by (by eapply run_NoDup).
  assert (NoDup (generated w1)) as Hnd1.
  { eapply reg_step_NoDup; [apply (step_reg_step (EvMessage m1))|done]. }
  destruct (run_ok events1 initial Hnd1 initial_ok) as (Hgen & _ & Hdisj).
  assert (is_Some (pendingRequests w1 !! X)) as Hsome by (by rewrite Hentry).
  pose proof (Hdisj X Hsome) as Hstream. pose proof (Hgen X Hsome) as Hin.
  destruct (drain_frame (handleMessage m1 w1)) as [_ Hdp _ Hdg Hde _ Hds].
  assert (pendingRequests w2 !! X = None) as Hp2.
  { unfold w2, step. cbn. rewrite Hdp, handleMessage_pending.
    destruct Hm1 as [[v ->] | (c & msg & d & ->)]; apply lookup_delete_eq. }
  assert (retired X w2) as Hret.
  { split; [|split; [done|]].
    - unfold w2, step. cbn. by rewrite Hdg, handleMessage_generated.
    - unfold w2, step. cbn. eapply lookup_weaken_None; [|exact Hds].
      rewrite handleMessage_streaming.
      destruct Hm1 as [[v ->] | (c & msg & d & ->)]; [done|apply lookup_delete_eq]. }
  assert (handleMessage m2 w3 = w3) as Hlater.
  { destruct (run_retired X events2 w2 Hnd Hret) as (_ & Hp3 & Hs3).
    by apply (handleMessage_unknown_id X). }
  split_and!; try done.
  - unfold w2, step. cbn. rewrite Hde. by apply (handleMessage_settles X).
  - unfold step. cbn [task]. rewrite Hlater. apply drain_quiet.
    apply run_quiet, step_quiet, run_quiet, initial_quiet.
  - apply run_keeps.
Qed.

Lemma pending_settled_at_most_once_witness :
  let w1 := run (Sample.loaded ++
                 [EvCall "add" (VObj [("a", VNum 5); ("b", VNum 3)]) None "call-1"])
                initial in
  let w2 := step (EvMessage (ResultMsg "call-1" (VNum 8))) w1 in
  let w3 := run [EvCall "double" (VNum 7) None "call-2"] w2 in
  effects w2 = effects w1 ++ [CalledResolve (ResolvePromise 1) (VNum 8)] /\
  pendingRequests w2 !! "call-1" = None /\
  handleMessage (ErrorMsg "call-1" WASM_TRAP "late" VUndefined) w3 = w3 /\
  step (EvMessage (ErrorMsg "call-1" WASM_TRAP "late" VUndefined)) w3 = w3 /\
  (forall p s, promises w2 !! p = Some s -> s <> Pending -> promises w3 !! p = Some s).
Proof.
  apply (pending_settled_at_most_once
           (Sample.loaded ++
            [EvCall "add" (VObj [("a", VNum 5); ("b", VNum 3)]) None "call-1"])
           [EvCall "double" (VNum 7) None "call-2"]
           "call-1"
           {| PendingRequest.resolve := ResolvePromise 1;
              PendingRequest.reject := RejectPromise 1 |}
           (ResultMsg "call-1" (VNum 8))
           (ErrorMsg "call-1" WASM_TRAP "late" VUndefined)).
  - vm_compute. reflexivity.
  - left. exists (VNum 8). reflexivity.
  - right. exists WASM_TRAP, "late", VUndefined. reflexivity.
  - apply (bool_decide_unpack _). vm_compute. exact I.
Defined.

(** C2.  Two calls are made on a ready Controller, [A] and then [B], with
    different ids, and the Runtime answers [B] first.  Handling the answer
    to [B] fulfils the promise of [B] with the value it carries while the
    promise of [A] is still pending and the entry of [A] is untouched; the
    answer to [A] then fulfils the promise of [A].  The callbacks are called
    in the order of the answers.  In general a message changes no pending
    entry under another id. *)
Theorem responses_matched_by_id w0 fnA plA optA idA fnB plB optB idB vA vB :
  worker w0 <> None -> initialized w0 = true -> idA <> idB ->
  let a := call fnA plA optA idA w0 in
  let b := call fnB plB optB idB a.2 in
  let w3 := step (EvMessage (ResultMsg idB vB)) b.2 in
  let w4 := step (EvMessage (ResultMsg idA vA)) w3 in
  exists pA pB,
    a.1 = inr pA /\ b.1 = inr pB /\ pA <> pB /\
    promises b.2 !! pA = Some Pending /\ promises b.2 !! pB = Some Pending /\
    promises w3 !! pB = Some (Fulfilled vB) /\ promises w3 !! pA = Some Pending /\
    pendingRequests w3 !! idA = pendingRequests b.2 !! idA /\
    is_Some (pendingRequests w3 !! idA) /\
    pendingRequests w3 !! idB = None /\
    promises w4 !! pA = Some (Fulfilled vA) /\ promises w4 !! pB = Some (Fulfilled vB) /\
    effects w4 = effects b.2 ++
      [CalledResolve (ResolvePromise pB) vB; CalledResolve (ResolvePromise pA) vA] /\
    (forall w msg id, response_id msg <> Some id ->
       pendingRequests (step (EvMessage msg) w) !! id = pendingRequests w !! id).
Proof.
  intros Hw Hi Hne a b w3 w4.
  destruct (call_ready fnA plA optA idA w0 Hw Hi) as (Ha1 & Hap & Hapd & Haw & Hai & _).
  fold a in Ha1, Hap, Hapd, Haw, Hai.
  assert (worker a.2 <> None) as Hw2 by (by rewrite Haw).
  destruct (call_ready fnB plB optB idB a.2 Hw2 Hai) as (Hb1 & Hbp & Hbpd & _).
  fold b in Hb1, Hbp, Hbpd.
  set (pA := length (promises w0)) in *. set (pB := length (promises a.2)) in *.
  assert (pB = S pA) as HpB by (unfold pB; rewrite Hap, length_app; cbn; lia).
  assert (promises b.2 !! pA = Some Pending) as HA.
  { rewrite Hbp, Hap, <- app_assoc. by apply list_lookup_middle. }
  assert (promises b.2 !! pB = Some Pending) as HB.
  { rewrite Hbp. by apply list_lookup_middle. }
  assert (pendingRequests b.2 !! idB = Some
            {| PendingRequest.resolve := ResolvePromise pB;
               PendingRequest.reject := RejectPromise pB |}) as HeB.
  { rewrite Hbpd. apply lookup_insert_eq. }
  assert (pendingRequests b.2 !! idA = Some
            {| PendingRequest.resolve := ResolvePromise pA;
               PendingRequest.reject := RejectPromise pA |}) as HeA.
  { rewrite Hbpd, lookup_insert_ne, Hapd by done. apply lookup_insert_eq. }
  destruct (handleMessage_result_resolves idB vB pB _ b.2 HeB HB) as (H3B & H3o & H3e & H3p).
  fold w3 in H3B, H3o, H3e, H3p.
  assert (pendingRequests w3 !! idA = pendingRequests b.2 !! idA) as H3A.
  { rewrite H3p. by apply lookup_delete_ne. }
  assert (promises w3 !! pA = Some Pending) as H3pA by (apply H3o; [lia|done]).
  rewrite HeA in H3A.
  destruct (handleMessage_result_resolves idA vA pA _ w3 H3A H3pA) as (H4A & H4o & H4e & _).
  fold w4 in H4A, H4o, H4e.
  exists pA, pB. split_and!; try done.
  - lia.
  - by rewrite HeA.
  - rewrite H3p. apply lookup_delete_eq.
  - apply H4o; [lia|done].
  - by rewrite H4e, H3e, <- app_assoc.
  - intros w msg id. apply handleMessage_other_id.
Qed.

Lemma responses_matched_by_id_witness :
  let w0 := run Sample.loaded initial in
  let a := call "add" (VObj [("a", VNum 5); ("b", VNum 3)]) None "call-A" w0 in
  let b := call "double" (VNum 7) None "call-B" a.2 in
  let w3 := step (EvMessage (ResultMsg "call-B" (VNum 14))) b.2 in
  let w4 := step (EvMessage (ResultMsg "call-A" (VNum 8))) w3 in
  exists pA pB,
    a.1 = inr pA /\ b.1 = inr pB /\ pA <> pB /\
    promises w3 !! pB = Some (Fulfilled (VNum 14)) /\
    promises w3 !! pA = Some Pending /\
    promises w4 !! pA = Some (Fulfilled (VNum 8)).
Proof.
  destruct (responses_matched_by_id (run Sample.loaded initial)
              "add" (VObj [("a", VNum 5); ("b", VNum 3)]) None "call-A"
              "double" (VNum 7) None "call-B" (VNum 8) (VNum 14))
    as (pA & pB & Ha & Hb & Hne & _ & _ & H3B & H3A & _ & _ & _ & H4A & _).
  - vm_compute. discriminate.
  - vm_compute. reflexivity.
  - discriminate.
  - exists pA, pB. repeat (split; [assumption|]). assumption.
Defined.

(** C4.  When there is no worker, or [initialized] is false, [call] fails
    at once with the error "Worker not initialized" or "Worker not ready".
    The state is the same afterwards: no message is posted, [generateId] is
    not called, and no pending entry is made. *)
Theorem call_before_ready_fails fn payload options fresh w :
  worker w = None \/ initialized w = false ->
  let r := call fn payload options fresh w in
  (exists e, r.1 = inl e /\
     (message e = "Worker not initialized" \/ message e = "Worker not ready")) /\
  r.2 = w /\
  effects r.2 = effects w /\
  generated r.2 = generated w /\
  pendingRequests r.2 = pendingRequests w.
Proof.
  intros H. cbn zeta. unfold call. destruct (worker w) as [wk|].
  - destruct H as [H|H]; [done|]. rewrite H. cbn. eauto 10.
  - cbn. eauto 10.
Qed.

Lemma call_before_ready_fails_witness :
  let w := (init None Sample.options "init-1" initial).2 in
  let r := call "add" (VObj [("a", VNum 1); ("b", VNum 2)]) None "call-1" w in
  (exists e, r.1 = inl e /\
     (message e = "Worker not initialized" \/ message e = "Worker not ready")) /\
  r.2 = w /\
  effects r.2 = effects w /\
  generated r.2 = generated w /\
  pendingRequests r.2 = pendingRequests w.
Proof.
  exact (call_before_ready_fails "add" (VObj [("a", VNum 1); ("b", VNum 2)]) None
           "call-1" (init None Sample.options "init-1" initial).2
           (or_intror eq_refl)).
Defined.


(** C10.  In every run of the Controller, each posting of a request comes
    just after the registration of its id in the registry that owns it.
    For [init], [call] and the first [next()] of a [stream], the two effects
    of the operation are the registration and then the posting, and the id
    is registered when the operation ends. *)
Theorem registered_before_message_posted :
  (forall events, registered_before_posted (effects (run events initial))) /\
  (forall options fresh w,
     let w' := (init None options fresh w).2 in
     effects w' = effects w ++
       [Registered PendingRegistry fresh;
        Posted (InitMsg fresh (LoadOptions.moduleUrl options) (LoadOptions.init options)) []] /\
     is_Some (pendingRequests w' !! fresh)) /\
  (forall fn payload options fresh w,
     worker w <> None -> initialized w = true ->
     let w' := (call fn payload options fresh w).2 in
     exists transfer,
       effects w' = effects w ++
         [Registered PendingRegistry fresh; Posted (CallMsg fresh fn payload) transfer] /\
       is_Some (pendingRequests w' !! fresh)) /\
  (forall g gen fresh w,
     worker w <> None -> initialized w = true ->
     generators w !! g = Some gen -> gen_state gen = SuspendedStart ->
     let w' := next g fresh w in
     effects w' = effects w ++
       [Registered StreamingRegistry fresh;
        Posted (StreamOpenMsg fresh (gen_fn gen) (gen_payload gen)) []] /\
     is_Some (streamingRequests w' !! fresh)).
Proof.
  split_and!.
  - intros events. apply run_registered_before_posted. apply no_posting_registered, no_posting_nil.
  - intros options fresh w. cbn. split; [by rewrite <- app_assoc|].
    rewrite lookup_insert_eq. eauto.
  - intros fn payload options fresh w Hw Hi.
    destruct (call_ready fn payload options fresh w Hw Hi) as (_ & _ & Hp & _ & _ & t & He).
    cbn zeta. exists t. split; [done|]. rewrite Hp, lookup_insert_eq. eauto.
  - intros g gen fresh w Hw Hi Hg Hst. cbn zeta. unfold next. rewrite Hg, Hst.
    unfold stream_start. destruct (worker w) eqn:Hw'; [|done]. rewrite Hi. cbn.
    rewrite stream_loop_eq. cbn. unfold deref. cbn.
    rewrite lookup_total_app_r, Nat.sub_diag by done. cbn.
    unfold update_generator. cbn. rewrite Hg. cbn.
    split; [by rewrite <- app_assoc|]. rewrite lookup_insert_eq. eauto.
Qed.

Lemma registered_before_message_posted_witness :
  let w := run Sample.loaded initial in
  let w' := (call "add" (VObj [("a", VNum 5); ("b", VNum 3)]) None "call-1" w).2 in
  exists transfer,
    effects w' = effects w ++
      [Registered PendingRegistry "call-1";
       Posted (CallMsg "call-1" "add" (VObj [("a", VNum 5); ("b", VNum 3)])) transfer] /\
    is_Some (pendingRequests w' !! "call-1").
Proof.
  apply (proj1 (proj2 (proj2 registered_before_message_posted))).
  - vm_compute. discriminate.
  - vm_compute. reflexivity.
Defined.

(** C3 (the code departs from it).  A consumer opens a stream and reads; the
    chunks v1, v2, v3 arrive and then [stream_close].  Each chunk is pushed
    on the queue and, [streaming.resolve] being a function, shifted out at
    once and handed to [resolve]; the generator does not use the value of
    its [await] and finds the queue empty.  The consumer is given no chunk,
    only the end of the stream. *)
Theorem stream_chunks_are_lost :
  let w := run Sample.streamed initial in
  observed <$> generators w = [[Finished]] /\
  StreamingRequest.queue <$> heap w = [[]] /\
  effects w =
    [Registered PendingRegistry "init-1";
     Posted (InitMsg "init-1" "/examples/rust-add/dist/module.wasm" VUndefined) [];
     CalledResolve (ResolveInit 0) (VObj [("initialized", VBool true)]);
     Registered StreamingRegistry "stream-1";
     Posted (StreamOpenMsg "stream-1" "tokens" VUndefined) [];
     CalledResolve (ResolvePromise 1) (IteratorResult (VStr "v1") false);
     CalledResolve (ResolvePromise 2) (IteratorResult (VStr "v2") false);
     CalledResolve (ResolvePromise 3) (IteratorResult (VStr "v3") false);
     CalledResolve (ResolvePromise 4) (IteratorResult VUndefined true)].
Proof. vm_compute. repeat split. Qed.
End BridgeSpec.

(** * More properties of the Runtime *)

Module RuntimeMore.
Import Runtime Serving RuntimeSpec.

Ltac one_answer := cbn; eexists; split_and!; try reflexivity; done.

Lemma serve_cons P msg msgs c : serve P (msg :: msgs) c = serve P msgs (onmessage P msg c).2.
Proof. done. Qed.

(** The one message that a handler posts. *)
Lemma handleInit_posts P id moduleUrl init c :
  exists r, outbox (handleInit P id moduleUrl init c).2 = outbox c ++ [r] /\
            response_id r = Some id /\ is_answer r /\
            invoked (handleInit P id moduleUrl init c).2 = invoked c.
Proof.
  unfold handleInit, try_catch, mbind, M_bind, bind, await.
  destruct (fetch P moduleUrl) as [response|t]; [|one_answer].
  destruct (ok response); cbn; [|one_answer].
  destruct (arrayBuffer response) as [buf|t]; [|one_answer].
  destruct (compile P buf) as [m|t]; [|one_answer].
  destruct (instantiate P m _) as [inst|t]; [|one_answer].
  cbn. destruct (memory_export inst); one_answer.
Qed.

Lemma handleCall_posts c id fn payload :
  exists r, outbox (handleCall id fn payload c).2 = outbox c ++ [r] /\
            response_id r = Some id /\ is_answer r.
Proof.
  destruct (initialized (state c)) eqn:Hi;
    [|rewrite handleCall_uninitialized by auto; one_answer].
  destruct (instance (state c)) as [inst|] eqn:Hs;
    [|rewrite handleCall_uninitialized by auto; one_answer].
  destruct (is_function (export_get (exports inst) fn)) eqn:Hf.
  - destruct (export_get (exports inst) fn) as [[f| |]|] eqn:Hg; try discriminate.
    rewrite (handleCall_found c inst id fn payload Hi Hs f Hg). cbn.
    destruct (f _); one_answer.
  - rewrite (handleCall_not_function c inst id fn payload Hi Hs Hf). one_answer.
Qed.

Lemma onmessage_posts P msg c :
  exists r, outbox (onmessage P msg c).2 = outbox c ++ [r] /\
            response_id r = Some (request_id msg) /\ is_answer r.
Proof.
  destruct msg as [id url init|id fn payload|id fn payload]; cbn.
  - destruct (handleInit_posts P id url init c) as (r & ? & ? & ? & _). eauto.
  - apply handleCall_posts.
  - one_answer.
Qed.

(** X1.  Whatever the request and the state of the worker, the handler posts
    exactly one message for it: a [result] or an [error] that carries the id
    of the request. *)
Theorem every_request_answered P msg c :
  exists r, outbox (onmessage P msg c).2 = outbox c ++ [r] /\
            response_id r = Some (request_id msg) /\ is_answer r.
Proof. apply onmessage_posts. Qed.

Lemma handleCall_state c id fn payload : state (handleCall id fn payload c).2 = state c.
Proof.
  destruct (initialized (state c)) eqn:Hi;
    [|by rewrite handleCall_uninitialized by auto].
  destruct (instance (state c)) as [inst|] eqn:Hs;
    [|by rewrite handleCall_uninitialized by auto].
  destruct (is_function (export_get (exports inst) fn)) eqn:Hf.
  - destruct (export_get (exports inst) fn) as [[f| |]|] eqn:Hg; try discriminate.
    by rewrite (handleCall_found c inst id fn payload Hi Hs f Hg).
  - by rewrite (handleCall_not_function c inst id fn payload Hi Hs Hf).
Qed.

(** What [handleInit] leaves: the state as it was and an [error], or the new
    instance, [initialized] and the [result]. *)
Lemma handleInit_cases P id moduleUrl init c :
  let c' := (handleInit P id moduleUrl init c).2 in
  (state c' = state c /\
   exists code message details,
     outbox c' = outbox c ++ [ErrorMsg id code message details] /\
     (code = MODULE_FETCH_FAILED \/ code = WASM_INIT_FAILED)) \/
  (exists inst,
     instance (state c') = Some inst /\ initialized (state c') = true /\
     memory (state c') = match memory_export inst with
                         | Some m => Some m
                         | None => memory (state c)
                         end /\
     outbox c' = outbox c ++ [ResultMsg id (VObj [("initialized", VBool true)])]).
Proof.
  cbn zeta. unfold handleInit, try_catch, mbind, M_bind, bind, await.
  destruct (fetch P moduleUrl) as [response|t]; [|left; cbn; eauto 10].
  destruct (ok response); cbn; [|left; eauto 10].
  destruct (arrayBuffer response) as [buf|t]; [|left; cbn; eauto 10].
  destruct (compile P buf) as [m|t]; [|left; cbn; eauto 10].
  destruct (instantiate P m _) as [inst|t]; [|left; cbn; eauto 10].
  right. exists inst. cbn. destruct (memory_export inst); cbn; eauto.
Qed.

(** X2.  A message changes the state of the Runtime only when it is an [init]
    that succeeds: then the instance is recorded, [initialized] is true and
    the answer is the [result]; a call, a [stream_open] and a failed [init]
    leave the state as it was. *)
Theorem state_changes_only_on_successful_init P msg c :
  let c' := (onmessage P msg c).2 in
  state c' = state c \/
  exists id moduleUrl init inst,
    msg = InitMsg id moduleUrl init /\
    instance (state c') = Some inst /\
    initialized (state c') = true /\
    outbox c' = outbox c ++ [ResultMsg id (VObj [("initialized", VBool true)])].
Proof.
  destruct msg as [id url init|id fn payload|id fn payload]; cbn zeta; cbn [onmessage].
  - destruct (handleInit_cases P id url init c) as [[Hs _] | (inst & Hi & Hini & _ & Ho)];
      [by left|]. right. by exists id, url, init, inst.
  - left. apply handleCall_state.
  - by left.
Qed.

Lemma onmessage_initialized P msg c :
  initialized (state c) = true -> initialized (state (onmessage P msg c).2) = true.
Proof.
  intros H. destruct msg as [id url init|id fn payload|id fn payload]; cbn [onmessage].
  - destruct (handleInit_cases P id url init c) as [[Hs _] | (inst & _ & Hini & _)];
      [by rewrite Hs|done].
  - by rewrite handleCall_state.
  - done.
Qed.

Lemma onmessage_has_instance P msg c :
  (initialized (state c) = true -> is_Some (instance (state c))) ->
  initialized (state (onmessage P msg c).2) = true ->
  is_Some (instance (state (onmessage P msg c).2)).
Proof.
  intros H. destruct msg as [id url init|id fn payload|id fn payload]; cbn [onmessage].
  - destruct (handleInit_cases P id url init c) as [[Hs _] | (inst & Hi & _)];
      [by rewrite Hs|]. rewrite Hi. eauto.
  - by rewrite handleCall_state.
  - done.
Qed.

(** X3.  Once the Runtime is initialized it stays so, whatever messages
    follow, and from the start of the worker on, an initialized Runtime always
    has an instance. *)
Theorem initialized_is_kept P msgs :
  (forall c, initialized (state c) = true ->
             initialized (state (serve P msgs c)) = true) /\
  (initialized (state (serve P msgs startup)) = true ->
   is_Some (instance (state (serve P msgs startup)))).
Proof.
  split.
  - induction msgs as [|msg msgs IH]; intros c H; [done|].
    rewrite serve_cons. by apply IH, onmessage_initialized.
  - assert (forall c, (initialized (state c) = true -> is_Some (instance (state c))) ->
              initialized (state (serve P msgs c)) = true ->
              is_Some (instance (state (serve P msgs c)))) as H.
    { induction msgs as [|msg msgs IH]; intros c Hc; [done|].
      rewrite serve_cons. apply IH. by apply onmessage_has_instance. }
    apply H. done.
Qed.

Lemma initialized_is_kept_witness :
  initialized
    (state (serve Scenario.missing
              [InitMsg "init-2" "/gone.wasm" VUndefined;
               CallMsg "c1" "divide" (VArr [VNum 1; VNum 0]);
               StreamOpenMsg "s1" "tokens" VUndefined]
              Sample.ready_context)) = true.
Proof.
  exact (proj1 (initialized_is_kept Scenario.missing
                  [InitMsg "init-2" "/gone.wasm" VUndefined;
                   CallMsg "c1" "divide" (VArr [VNum 1; VNum 0]);
                   StreamOpenMsg "s1" "tokens" VUndefined])
               Sample.ready_context eq_refl).
Defined.

(** X4.  The worker posts [ready] once, when it starts, and then, the
    requests being handled one after the other, one answer for each request,
    in the order of the requests and with their ids. *)
Theorem ready_then_one_answer_each P msgs :
  exists answers,
    outbox (serve P msgs startup) = ReadyMsg :: answers /\
    Forall is_answer answers /\
    response_id <$> answers = (fun msg => Some (request_id msg)) <$> msgs.
Proof.
  assert (forall c, exists answers,
            outbox (serve P msgs c) = outbox c ++ answers /\
            Forall is_answer answers /\
            response_id <$> answers = (fun msg => Some (request_id msg)) <$> msgs) as H.
  { induction msgs as [|msg msgs IH]; intros c.
    - exists []. by rewrite app_nil_r.
    - rewrite serve_cons.
      destruct (onmessage_posts P msg c) as (r & Ho & Hid & Ha).
      destruct (IH (onmessage P msg c).2) as (answers & Ho' & Hall & Hids).
      exists (r :: answers). rewrite Ho', Ho, <- app_assoc. split; [done|].
      split; [by constructor|]. cbn. by rewrite Hid, Hids. }
  destruct (H startup) as (answers & Ho & Hall & Hids). by exists answers.
Qed.

(** X5.  On an initialized Runtime, the name of an export that is not a
    function, the memory for one, is answered like a name that is not
    exported: [FN_NOT_FOUND], the name not being among [availableFunctions],
    and nothing is invoked. *)
Theorem export_that_is_no_function c inst id fn payload e :
  initialized (state c) = true ->
  instance (state c) = Some inst ->
  export_get (exports inst) fn = Some e ->
  (forall f, e <> ExFunction f) ->
  let c' := (handleCall id fn payload c).2 in
  outbox c' = outbox c ++
    [ErrorMsg id FN_NOT_FOUND
       ("Function " +:+ dquote +:+ fn +:+ dquote +:+ " not found in WASM module")
       (VObj [("availableFunctions", VArr (VStr <$> callable_names inst))])] /\
  (fn ∉ callable_names inst) /\
  invoked c' = invoked c /\
  state c' = state c.
Proof.
  intros Hi Hs He Hno. cbn zeta.
  assert (is_function (export_get (exports inst) fn) = false) as Hf.
  { rewrite He. destruct e; try done. by destruct (Hno f). }
  rewrite (handleCall_not_function c inst id fn payload Hi Hs Hf). cbn.
  split_and!; try done.
  intros Hin. apply callable_names_spec in Hin as [f Hf']. rewrite He in Hf'.
  injection Hf' as ->. by destruct (Hno f).
Qed.

Lemma export_that_is_no_function_witness :
  let c' := (handleCall "c1" "memory" VUndefined Sample.ready_context).2 in
  outbox c' = outbox Sample.ready_context ++
    [ErrorMsg "c1" FN_NOT_FOUND
       ("Function " +:+ dquote +:+ "memory" +:+ dquote +:+ " not found in WASM module")
       (VObj [("availableFunctions",
               VArr (VStr <$> callable_names Sample.module_instance))])] /\
  ("memory" ∉ callable_names Sample.module_instance) /\
  invoked c' = invoked Sample.ready_context /\
  state c' = state Sample.ready_context.
Proof.
  apply (export_that_is_no_function Sample.ready_context Sample.module_instance
           "c1" "memory" VUndefined (ExMemory {| pages := 17 |}) eq_refl eq_refl eq_refl).
  intros f. discriminate.
Defined.

(** X6.  The answer to [init] is [MODULE_FETCH_FAILED] exactly when [fetch]
    gave a response that is not [ok]; it then carries the status text, the
    status and the locator, and the state is as before.  It is the [result]
    exactly when the fetch, the reading of the body, the compilation and the
    instantiation all succeed.  The only other answer is an error with the
    code [WASM_INIT_FAILED]. *)
Theorem handleInit_classification P id moduleUrl init c :
  let c' := (handleInit P id moduleUrl init c).2 in
  let env := VObj [("env", if truthy init then init else VObj [])] in
  exists r,
    outbox c' = outbox c ++ [r] /\
    (error_code r = Some MODULE_FETCH_FAILED <->
     exists response, fetch P moduleUrl = Returns response /\ ok response = false) /\
    (forall response,
       fetch P moduleUrl = Returns response -> ok response = false ->
       r = ErrorMsg id MODULE_FETCH_FAILED
             ("Failed to fetch module: " +:+ statusText response)
             (VObj [("status", VNum (status response)); ("url", VStr moduleUrl)]) /\
       state c' = state c) /\
    (r = ResultMsg id (VObj [("initialized", VBool true)]) <->
     exists response buf m inst,
       fetch P moduleUrl = Returns response /\ ok response = true /\
       arrayBuffer response = Returns buf /\ compile P buf = Returns m /\
       instantiate P m env = Returns inst) /\
    (error_code r = None \/ error_code r = Some MODULE_FETCH_FAILED \/
     error_code r = Some WASM_INIT_FAILED).
Proof.
  cbn zeta. unfold handleInit, try_catch, mbind, M_bind, bind, await.
  destruct (fetch P moduleUrl) as [response|t] eqn:Hfetch.
  2: { cbn. eexists. split; [reflexivity|]. cbn. split_and!; try done; auto.
       - split; [done|]. by intros (? & ? & _).
       - split; [done|]. by intros (? & ? & ? & ? & ? & _). }
  destruct (ok response) eqn:Hok; cbn.
  2: { eexists. split; [reflexivity|]. cbn. split_and!; auto.
       - split; [|done]. intros _. by exists response.
       - intros ? [= <-] _. done.
       - split; [done|]. intros (r' & ? & ? & ? & [= <-] & ? & _). congruence. }
  destruct (arrayBuffer response) as [buf|t] eqn:Hbuf.
  2: { cbn. eexists. split; [reflexivity|]. cbn. split_and!; auto.
       - split; [done|]. intros (r' & [= <-] & ?). congruence.
       - intros ? [= <-] ?. congruence.
       - split; [done|]. intros (r' & ? & ? & ? & [= <-] & ? & ? & _). congruence. }
  destruct (compile P buf) as [m|t] eqn:Hm.
  2: { cbn. eexists. split; [reflexivity|]. cbn. split_and!; auto.
       - split; [done|]. intros (r' & [= <-] & ?). congruence.
       - intros ? [= <-] ?. congruence.
       - split; [done|]. intros (r' & ? & ? & ? & [= <-] & ? & ? & ? & _). congruence. }
  destruct (instantiate P m _) as [inst|t] eqn:Hinst.
  2: { cbn. eexists. split; [reflexivity|]. cbn. split_and!; auto.
       - split; [done|]. intros (r' & [= <-] & ?). congruence.
       - intros ? [= <-] ?. congruence.
       - split; [done|].
         intros (r' & ? & ? & ? & [= <-] & ? & ? & ? & ?). congruence. }
  cbn. destruct (memory_export inst); cbn; (eexists; split; [reflexivity|]); cbn;
    (split_and!; auto;
     [ split; [done|]; intros (r' & [= <-] & ?); congruence
     | intros ? [= <-] ?; congruence
     | split; [|done]; intros _; by exists response, buf, m, inst ]).
Qed.

(** X7.  A successful [init] records the memory that the module exports;
    when the module exports none, the memory recorded before stays, so after
    a second [init] the Runtime can hold the memory of the first module. *)
Theorem init_records_exported_memory P id moduleUrl init c response buf m inst :
  fetch P moduleUrl = Returns response -> ok response = true ->
  arrayBuffer response = Returns buf -> compile P buf = Returns m ->
  instantiate P m (VObj [("env", if truthy init then init else VObj [])]) = Returns inst ->
  let c' := (handleInit P id moduleUrl init c).2 in
  instance (state c') = Some inst /\
  (forall mem, export_get (exports inst) "memory" = Some (ExMemory mem) ->
               memory (state c') = Some mem) /\
  ((forall mem, export_get (exports inst) "memory" <> Some (ExMemory mem)) ->
   memory (state c') = memory (state c)).
Proof.
  intros Hf Hok Hb Hc Hi. cbn zeta.
  destruct (handleInit_cases P id moduleUrl init c) as [[Hs (code & msg & d & Ho & _)] | H].
  - exfalso. destruct (handleInit_success P id moduleUrl init c response buf m inst
                         Hf Hok Hb Hc Hi) as (_ & _ & Ho').
    rewrite Ho in Ho'. by apply app_inv_head in Ho'.
  - destruct H as (inst' & Hinst & _ & Hmem & _).
    destruct (handleInit_success P id moduleUrl init c response buf m inst
                Hf Hok Hb Hc Hi) as (_ & Hinst' & _).
    rewrite Hinst in Hinst'. injection Hinst' as ->. split; [done|].
    unfold memory_export in Hmem. split.
    + intros mem He. by rewrite Hmem, He.
    + intros Hno. rewrite Hmem. destruct (export_get _ _) as [[| mem |]|]; try done.
      by destruct (Hno mem).
Qed.

Lemma init_records_exported_memory_witness :
  let P := {| fetch := fetch Scenario.online; compile := compile Scenario.online;
              instantiate := fun _ _ => Returns Scenario.bare_instance |} in
  let c' := (handleInit P "init-2" "/bare.wasm" VUndefined Sample.ready_context).2 in
  instance (state c') = Some Scenario.bare_instance /\
  memory (state c') = Some {| pages := 17 |}.
Proof.
  cbn zeta.
  destruct (init_records_exported_memory
              {| fetch := fetch Scenario.online; compile := compile Scenario.online;
                 instantiate := fun _ _ => Returns Scenario.bare_instance |}
              "init-2" "/bare.wasm" VUndefined Sample.ready_context
              {| ok := true; status := 200; statusText := "OK";
                 arrayBuffer := Returns [0; 97; 115; 109]%Z |}
              [0; 97; 115; 109]%Z {| code := [0; 97; 115; 109]%Z |}
              Scenario.bare_instance eq_refl eq_refl eq_refl eq_refl eq_refl)
    as (H1 & _ & H3).
  split; [exact H1|]. apply H3. intros mem. discriminate.
Defined.
End RuntimeMore.

(** * More properties of the Controller *)

Module BridgeMore.
Import Bridge BridgeSpec Streams.

#[local] Arguments stream_loop : simpl never.
#[local] Arguments callResolve : simpl never.
#[local] Arguments callReject : simpl never.
#[local] Arguments settle : simpl never.
#[local] Arguments shift : simpl never.

#[local] Hint Rewrite callResolve_pending callResolve_streaming callResolve_generated
  callResolve_worker callResolve_heap callResolve_effects
  callReject_pending callReject_streaming callReject_generated callReject_worker
  callReject_initialized callReject_heap callReject_effects
  shift_pending shift_streaming shift_generated shift_worker shift_initialized
  shift_effects shift_promises
  callResolve_generators callReject_generators shift_generators
  callResolve_length callReject_length : frame.

(** *** Generators await promises of their own *)

Lemma stream_loop_fresh queued id request w :
  forall id' request' p' queued',
    (stream_loop queued id request w).1.1 = AwaitingChunk id' request' p' queued' ->
    length (promises w) <= p'.
Proof.
  revert w. induction queued as [|queued IH]; intros w; rewrite stream_loop_eq;
    cbn zeta; (destruct (negb _ || _); [destruct (Nat.ltb 0 _)|]).
  - destruct (shift request w) as [x w1]. by cbn.
  - cbn. by intros ???? [= <- <- <- <-].
  - by cbn.
  - pose proof (shift_promises request w) as Hs. destruct (shift request w) as [x w1].
    specialize (IH w1). destruct (stream_loop queued id request w1) as [[st obs] w2].
    cbn in *. intros ???? H. rewrite <- Hs. by eapply IH.
  - cbn. by intros ???? [= <- <- <- <-].
  - by cbn.
Qed.

Lemma distinct_same w w' :
  generators w' = generators w -> awaits_distinct w -> awaits_distinct w'.
Proof. unfold awaits_distinct. by intros ->. Qed.

Lemma distinct_update w w' g :
  (forall g', g' <> g -> generators w' !! g' = generators w !! g') ->
  awaits_existing w -> awaits_distinct w ->
  (forall gen id request p queued,
     generators w' !! g = Some gen ->
     gen_state gen = AwaitingChunk id request p queued ->
     length (promises w) <= p \/
     exists gen0 id0 request0 queued0,
       generators w !! g = Some gen0 /\
       gen_state gen0 = AwaitingChunk id0 request0 p queued0) ->
  awaits_distinct w'.
Proof.
  intros Hother Hex Hd Hnew g1 g2 gen1 gen2 id1 r1 q1 id2 r2 q2 p Hg1 Hs1 Hg2 Hs2.
  destruct (decide (g1 = g)) as [->|Hne1]; destruct (decide (g2 = g)) as [->|Hne2];
    try done.
  - rewrite Hother in Hg2 by done.
    pose proof (Hex _ _ _ _ _ _ Hg2 Hs2) as Hlt.
    destruct (Hnew _ _ _ _ _ Hg1 Hs1) as [Hge | (gen0 & id0 & r0 & q0 & Hg0 & Hs0)]; [lia|].
    eapply Hd; eauto.
  - rewrite Hother in Hg1 by done.
    pose proof (Hex _ _ _ _ _ _ Hg1 Hs1) as Hlt.
    destruct (Hnew _ _ _ _ _ Hg2 Hs2) as [Hge | (gen0 & id0 & r0 & q0 & Hg0 & Hs0)]; [lia|].
    eapply Hd; eauto.
  - rewrite Hother in Hg1, Hg2 by done. eapply Hd; eauto.
Qed.

Lemma update_generator_lookup g st obs w gen0 :
  generators w !! g = Some gen0 ->
  generators (update_generator g st obs w) !! g =
    Some {| gen_fn := gen_fn gen0; gen_payload := gen_payload gen0; gen_state := st;
            observed := observed gen0 ++ obs |}.
Proof.
  intros Hg. unfold update_generator. rewrite Hg. cbn.
  apply list_lookup_insert_eq. by eapply lookup_lt_Some.
Qed.

Lemma update_generator_others g st obs w g' :
  g' <> g -> generators (update_generator g st obs w) !! g' = generators w !! g'.
Proof.
  intros Hne. unfold update_generator. destruct (generators w !! g); [|done].
  cbn. by rewrite list_lookup_insert_ne.
Qed.

Lemma update_generator_distinct g st obs w :
  awaits_existing w -> awaits_distinct w ->
  (forall id request p queued,
     st = AwaitingChunk id request p queued ->
     length (promises w) <= p \/
     exists gen0 id0 request0 queued0,
       generators w !! g = Some gen0 /\
       gen_state gen0 = AwaitingChunk id0 request0 p queued0) ->
  awaits_distinct (update_generator g st obs w).
Proof.
  intros Hex Hd Hst. destruct (decide (is_Some (generators w !! g))) as [[gen0 Hg]|Hn].
  - apply (distinct_update w _ g); try done.
    + intros g' Hne. by apply update_generator_others.
    + intros gen id request p queued Hg' Hs'.
      rewrite (update_generator_lookup _ _ _ _ _ Hg) in Hg'. injection Hg' as <-.
      cbn in Hs'. eauto.
  - apply eq_None_not_Some in Hn. unfold update_generator. by rewrite Hn.
Qed.

Lemma loop_update_distinct queued id request g w :
  awaits_existing w -> awaits_distinct w ->
  awaits_distinct (let '(st, obs, w1) := stream_loop queued id request w in
                   update_generator g st obs w1).
Proof.
  intros Hex Hd.
  pose proof (stream_loop_frame queued id request w) as Hf.
  pose proof (stream_loop_fresh queued id request w) as Hfresh.
  destruct (stream_loop_state queued id request w) as [Hgen _].
  destruct (stream_loop queued id request w) as [[st obs] w1]. cbn in *.
  destruct (generators w !! g) as [gen0|] eqn:Hg.
  - apply (distinct_update w _ g); try done.
    + intros g' Hne. by rewrite update_generator_others, Hgen.
    + intros gen id' request' p queued' Hg' Hs'.
      rewrite (update_generator_lookup g st obs w1 gen0) in Hg' by (by rewrite Hgen).
      injection Hg' as <-. cbn in Hs'. left. by eapply Hfresh.
  - unfold update_generator. rewrite Hgen, Hg. by eapply distinct_same.
Qed.

Lemma resume_distinct g w :
  awaits_existing w -> awaits_distinct w -> awaits_distinct (resume g w).
Proof.
  intros Hex Hd. unfold resume. destruct (generators w !! g) as [gen|] eqn:Hg; [|done].
  destruct (gen_state gen) eqn:Hst; try done.
  destruct (promises w !! p) as [[]|]; try done.
  - by apply loop_update_distinct.
  - apply (distinct_update w _ g); try done.
    + intros g' Hne. by rewrite update_generator_others.
    + intros gen' ???? Hg' Hs'.
      rewrite (update_generator_lookup g _ _ (streamingDelete id w) gen) in Hg' by done.
      by injection Hg' as <-.
Qed.

Lemma drain_distinct w :
  awaits_existing w -> awaits_distinct w -> awaits_distinct (drain w).
Proof.
  unfold drain. generalize (seq 0 (length (generators w))). intros l.
  revert w. induction l as [|g l IH]; intros w Hex Hd; cbn; [done|].
  apply IH; [by apply resume_existing|by apply resume_distinct].
Qed.

Lemma task_distinct e w :
  awaits_existing w -> awaits_distinct w -> awaits_distinct (task e w).
Proof.
  intros Hex Hd.
  destruct e as [spawn_failure options fresh|message|msg|fn payload options fresh
                |fn payload|g fresh|]; cbn.
  - destruct spawn_failure; cbn; (eapply distinct_same; [|done]);
      by autorewrite with frame.
  - unfold handleWorkerError. destruct (worker w); [|done].
    eapply distinct_same; [|done]. by autorewrite with frame.
  - eapply distinct_same; [apply handleMessage_generators|done].
  - unfold call. destruct (worker w); [|done].
    destruct (negb (initialized w)); [done|]. by eapply distinct_same.
  - intros g1 g2 gen1 gen2 id1 r1 q1 id2 r2 q2 p Hg1 Hs1 Hg2 Hs2. cbn in Hg1, Hg2.
    apply lookup_app_Some in Hg1 as [Hg1 | [_ Hg1]];
      [|apply list_lookup_singleton_Some in Hg1 as [_ <-]; done].
    apply lookup_app_Some in Hg2 as [Hg2 | [_ Hg2]];
      [|apply list_lookup_singleton_Some in Hg2 as [_ <-]; done].
    eapply Hd; eauto.
  - unfold next. destruct (generators w !! g) as [gen|] eqn:Hg; [|done].
    destruct (gen_state gen) eqn:Hst.
    + unfold stream_start. destruct (worker w); [|by apply update_generator_distinct].
      destruct (negb (initialized w)); [by apply update_generator_distinct|].
      cbn. apply loop_update_distinct; [by eapply existing_same|by eapply distinct_same].
    + apply update_generator_distinct; try done.
      intros ???? [= <- <- <- <-]. right. eauto 10.
    + by apply loop_update_distinct.
    + by apply update_generator_distinct.
  - unfold terminate. destruct (worker w); [|done]. by eapply distinct_same.
Qed.

Lemma run_awaits events :
  quiet (run events initial) /\ awaits_distinct (run events initial).
Proof.
  split; [apply run_quiet, initial_quiet|].
  assert (forall w, quiet w -> awaits_distinct w -> awaits_distinct (run events w)) as H.
  { induction events as [|e events IH]; intros w Hq Hd; [done|].
    rewrite run_cons. apply IH; [by apply step_quiet|]. unfold step.
    apply drain_distinct; [by apply task_existing, quiet_existing|].
    by apply task_distinct; [apply quiet_existing|]. }
  apply H; [apply initial_quiet|]. intros g1 ?????????? Hg1. by cbn in Hg1.
Qed.

Lemma foldl_resume_quiet l w :
  (forall g, g ∈ l -> awaits_pending w g) ->
  foldl (fun w g => resume g w) w l = w.
Proof.
  induction l as [|g l IH]; intros H; [done|]. cbn.
  rewrite resume_quiet by (apply H; by left). apply IH. intros g' Hin. apply H. by right.
Qed.

Lemma foldl_resume_single l g w :
  NoDup l -> awaits_existing w ->
  (forall g', g' <> g -> awaits_pending w g') ->
  foldl (fun w g => resume g w) w l = if decide (g ∈ l) then resume g w else w.
Proof.
  intros Hnd Hex Hothers. induction Hnd as [|g0 l Hnotin Hnd IH]; [done|]. cbn.
  destruct (decide (g0 = g)) as [->|Hne].
  - rewrite decide_True by (by left). apply foldl_resume_quiet.
    intros g' Hin. apply resume_others; [done|]. apply Hothers. by intros ->.
  - rewrite resume_quiet by auto. rewrite IH.
    destruct (decide (g ∈ l)) as [Hin|Hnin].
    + rewrite decide_True; [done|by right].
    + rewrite decide_False; [done|]. intros [?|?]%elem_of_cons; congruence.
Qed.

(** After a task that settled at most the promise that generator [g] awaits,
    the microtasks are the continuation of [g] alone. *)
Lemma drain_single g w :
  awaits_existing w ->
  (forall g', g' <> g -> awaits_pending w g') ->
  drain w = resume g w.
Proof.
  intros Hex Hothers. unfold drain.
  rewrite (foldl_resume_single _ g) by (done || apply NoDup_seq).
  destruct (decide (g ∈ seq 0 (length (generators w)))) as [Hin|Hnin]; [done|].
  unfold resume. destruct (generators w !! g) as [gen|] eqn:Hg; [|done].
  destruct Hnin. apply elem_of_seq. apply lookup_lt_Some in Hg. lia.
Qed.

(** *** What a message can settle *)

Lemma settle_other p s w q : q <> p -> promises (settle p s w) !! q = promises w !! q.
Proof.
  intros Hne. unfold settle. destruct (promises w !! p) as [[]|]; try done.
  cbn. by apply list_lookup_insert_ne.
Qed.

Lemma settle_pending p s w :
  promises w !! p = Some Pending -> promises (settle p s w) !! p = Some s.
Proof.
  intros H. unfold settle. rewrite H. cbn. apply list_lookup_insert_eq.
  by eapply lookup_lt_Some.
Qed.

Lemma settle_generators p s w : generators (settle p s w) = generators w.
Proof. unfold settle. by repeat case_match. Qed.

Lemma stream_ok_run events : stream_ok (run events initial).
Proof.
  apply run_stream_ok. split; [by constructor|]. intros g gen v Hg. by cbn in Hg.
Qed.

(** X8.  In every state that the Controller can reach, a message that no
    entry waits for, [ready] or a message of any kind whose id is in neither
    registry, changes nothing at all, microtasks included. *)
Theorem unmatched_message_is_dropped events msg :
  let w := run events initial in
  unmatched msg w -> step (EvMessage msg) w = w.
Proof.
  intros w Hun. unfold step. cbn [task].
  assert (handleMessage msg w = w) as ->.
  { destruct msg as [id v|id c m d|id v|id|]; cbn; try done;
      destruct (Hun id eq_refl) as [Hp Hs]; by rewrite ?Hp, ?Hs. }
  apply drain_quiet, run_awaits.
Qed.

Lemma unmatched_message_is_dropped_witness :
  let w := run (Sample.loaded ++
                [EvCall "add" (VObj [("a", VNum 5); ("b", VNum 3)]) None "call-1"])
               initial in
  step (EvMessage (StreamChunkMsg "gone" (VNum 1))) w = w /\
  step (EvMessage ReadyMsg) w = w.
Proof.
  split.
  - apply (unmatched_message_is_dropped
             (Sample.loaded ++
              [EvCall "add" (VObj [("a", VNum 5); ("b", VNum 3)]) None "call-1"])
             (StreamChunkMsg "gone" (VNum 1))).
    intros id [= <-]. vm_compute. split; reflexivity.
  - apply (unmatched_message_is_dropped
             (Sample.loaded ++
              [EvCall "add" (VObj [("a", VNum 5); ("b", VNum 3)]) None "call-1"])
             ReadyMsg).
    intros id Hid. discriminate Hid.
Defined.



(** X10.  In every state that the Controller can reach, when there is no
    worker both registries are empty and [initialized] is false: the flag is
    never true without a worker. *)
Theorem no_worker_means_idle events :
  let w := run events initial in
  (worker w = None ->
   pendingRequests w = ∅ /\ streamingRequests w = ∅ /\ initialized w = false) /\
  (initialized w = true -> worker w <> None).
Proof.
  intros w. pose proof (run_idle_ok events initial initial_idle_ok) as H. fold w in H.
  split; [exact H|]. intros Hi Hw. destruct (H Hw) as (_ & _ & Hf). congruence.
Qed.

Lemma no_worker_means_idle_witness :
  let w := run (Sample.loaded ++
                [EvCall "add" (VArr [VNum 1; VNum 2]) None "call-1"; EvTerminate])
               initial in
  pendingRequests w = ∅ /\ streamingRequests w = ∅ /\ initialized w = false.
Proof.
  apply (proj1 (no_worker_means_idle
                  (Sample.loaded ++
                   [EvCall "add" (VArr [VNum 1; VNum 2]) None "call-1"; EvTerminate]))).
  vm_compute. reflexivity.
Defined.

Lemma handleMessage_error_rejects w id resolve p code message details :
  pendingRequests w !! id =
    Some {| PendingRequest.resolve := resolve; PendingRequest.reject := RejectPromise p |} ->
  promises w !! p = Some Pending ->
  let w' := step (EvMessage (ErrorMsg id code message details)) w in
  promises w' !! p =
    Some (Rejected {| name := "WasmWorkerError"; message := message;
                      code := Some code; details := details |}) /\
  pendingRequests w' !! id = None /\
  initialized w' = initialized w.
Proof.
  intros Hp Hq. cbn zeta. unfold step. cbn [task].
  destruct (drain_frame (handleMessage (ErrorMsg id code message details) w))
    as [_ Hdp Hdi _ _ _ _].
  rewrite Hdp, Hdi, handleMessage_pending. split_and!.
  - apply drain_promise. cbn. rewrite Hp. cbn.
    assert (promises (callReject (RejectPromise p) (createError code message details) w)
              !! p = Some (Rejected (createError code message details))) as H1.
    { unfold callReject. by apply settle_pending. }
    destruct (streamingRequests w !! id); cbn; [|done].
    by apply callReject_keeps.
  - apply lookup_delete_eq.
  - cbn. rewrite Hp. destruct (streamingRequests w !! id);
      repeat (progress (cbn; autorewrite with frame)); done.
Qed.

(** X11.  An [error] message for a pending call rejects the promise of the
    call with an error object that carries the code, the message and the
    details exactly as they were received, under the name [WasmWorkerError];
    the entry is removed and [initialized] is not touched. *)
Theorem error_is_passed_on_as_received w id resolve p code message details :
  pendingRequests w !! id =
    Some {| PendingRequest.resolve := resolve; PendingRequest.reject := RejectPromise p |} ->
  promises w !! p = Some Pending ->
  let w' := step (EvMessage (ErrorMsg id code message details)) w in
  promises w' !! p =
    Some (Rejected {| name := "WasmWorkerError"; message := message;
                      code := Some code; details := details |}) /\
  pendingRequests w' !! id = None /\
  initialized w' = initialized w.
Proof. apply handleMessage_error_rejects. Qed.

Lemma error_is_passed_on_as_received_witness :
  let w := run (Sample.loaded ++
                [EvCall "nonExistentFunction" (VObj []) None "call-1"]) initial in
  let w' := step (EvMessage (ErrorMsg "call-1" FN_NOT_FOUND "not found"
                               (VObj [("availableFunctions", VArr [VStr "add"])]))) w in
  promises w' !! 1 =
    Some (Rejected {| name := "WasmWorkerError"; message := "not found";
                      code := Some FN_NOT_FOUND;
                      details := VObj [("availableFunctions", VArr [VStr "add"])] |}) /\
  pendingRequests w' !! "call-1" = None /\
  initialized w' = initialized w.
Proof.
  apply (error_is_passed_on_as_received
           (run (Sample.loaded ++
                 [EvCall "nonExistentFunction" (VObj []) None "call-1"]) initial)
           "call-1" (ResolvePromise 1) 1 FN_NOT_FOUND "not found"
           (VObj [("availableFunctions", VArr [VStr "add"])])).
  - vm_compute. reflexivity.
  - vm_compute. reflexivity.
Defined.

Lemma drain_no_generators w : generators w = [] -> drain w = w.
Proof. intros H. unfold drain. by rewrite H. Qed.

Lemma load_handshake options fresh :
  let p := (load None options fresh).1 in
  let w := (load None options fresh).2 in
  effects w =
    [Registered PendingRegistry fresh;
     Posted (InitMsg fresh (LoadOptions.moduleUrl options) (LoadOptions.init options)) []] /\
  promises w !! p = Some Pending /\
  initialized w = false /\
  (forall value,
     let w' := step (EvMessage (ResultMsg fresh value)) w in
     initialized w' = true /\
     promises w' !! p = Some (Fulfilled VUndefined) /\
     pendingRequests w' = ∅) /\
  (forall code message details,
     let w' := step (EvMessage (ErrorMsg fresh code message details)) w in
     initialized w' = false /\
     promises w' !! p = Some (Rejected (createError code message details)) /\
     pendingRequests w' = ∅ /\
     worker w' <> None).
Proof.
  cbn zeta. split_and!; try done.
  - intros value. unfold step. cbn [task]. rewrite drain_no_generators.
    + cbn. rewrite lookup_insert_eq. cbn. unfold callResolve, settle. cbn.
      split_and!; try done. by rewrite delete_insert_eq, delete_empty.
    + by rewrite handleMessage_generators.
  - intros code message details. unfold step. cbn [task]. rewrite drain_no_generators.
    + cbn. rewrite lookup_insert_eq, lookup_empty. cbn. unfold callReject, settle. cbn.
      split_and!; try done. by rewrite delete_insert_eq, delete_empty.
    + by rewrite handleMessage_generators.
Qed.

(** X12.  [load] registers the id of [init] and posts the [init] message.  A
    [result] for that id sets [initialized] and fulfils the promise of
    [init], which [load] awaits, with [undefined], whatever value the message
    carries; an [error] for that id rejects the promise with the error as
    received and leaves [initialized] false and the worker in place.  Either
    way the entry is removed. *)
Theorem load_is_settled_by_the_answer options fresh :
  let p := (load None options fresh).1 in
  let w := (load None options fresh).2 in
  effects w =
    [Registered PendingRegistry fresh;
     Posted (InitMsg fresh (LoadOptions.moduleUrl options) (LoadOptions.init options)) []] /\
  promises w !! p = Some Pending /\
  initialized w = false /\
  (forall value,
     let w' := step (EvMessage (ResultMsg fresh value)) w in
     initialized w' = true /\
     promises w' !! p = Some (Fulfilled VUndefined) /\
     pendingRequests w' = ∅) /\
  (forall code message details,
     let w' := step (EvMessage (ErrorMsg fresh code message details)) w in
     initialized w' = false /\
     promises w' !! p = Some (Rejected (createError code message details)) /\
     pendingRequests w' = ∅ /\
     worker w' <> None).
Proof. apply load_handshake. Qed.

(** X13.  A [stream] opened before the Controller is ready fails at the first
    read: calling [stream] only makes the generator, and the first [next()]
    is answered with the error "Worker not initialized" or "Worker not
    ready".  No id is generated, nothing is registered and nothing is
    posted. *)
Theorem stream_before_ready_fails fn payload fresh w :
  worker w = None \/ initialized w = false ->
  let g := (stream fn payload w).1 in
  let w1 := (stream fn payload w).2 in
  let w2 := next g fresh w1 in
  (exists e,
     generators w2 !! g =
       Some {| gen_fn := fn; gen_payload := payload; gen_state := Completed;
               observed := [Failed e] |} /\
     (message e = "Worker not initialized" \/ message e = "Worker not ready")) /\
  effects w2 = effects w /\
  generated w2 = generated w /\
  streamingRequests w2 = streamingRequests w /\
  promises w2 = promises w.
Proof.
  intros H. cbn zeta. unfold next, stream. cbn.
  rewrite lookup_app_r, Nat.sub_diag by done. cbn. unfold stream_start. cbn.
  assert (forall e,
            generators
              (update_generator (length (generators w)) Completed [Failed e]
                 (set_generators
                    (generators w ++
                     [{| gen_fn := fn; gen_payload := payload;
                         gen_state := SuspendedStart; observed := [] |}]) w))
              !! length (generators w) =
            Some {| gen_fn := fn; gen_payload := payload; gen_state := Completed;
                    observed := [Failed e] |}) as Hgen.
  { intros e.
    rewrite (update_generator_lookup _ _ _ _
               {| gen_fn := fn; gen_payload := payload; gen_state := SuspendedStart;
                  observed := [] |}); [done|].
    cbn. by rewrite lookup_app_r, Nat.sub_diag by done. }
  assert (forall e w0, effects (update_generator (length (generators w)) Completed e w0)
                       = effects w0 /\
                       generated (update_generator (length (generators w)) Completed e w0)
                       = generated w0 /\
                       streamingRequests
                         (update_generator (length (generators w)) Completed e w0)
                       = streamingRequests w0 /\
                       promises (update_generator (length (generators w)) Completed e w0)
                       = promises w0) as Hfr.
  { intros e w0. unfold update_generator. by destruct (generators w0 !! _). }
  destruct (worker w) as [wk|].
  - destruct H as [H|H]; [done|]. rewrite H. cbn.
    split; [eexists; split; [apply Hgen|by right]|].
    match goal with
    | |- effects (update_generator _ _ ?e ?w0) = _ /\ _ =>
        by destruct (Hfr e w0) as (-> & -> & -> & ->)
    end.
  - split; [eexists; split; [apply Hgen|by left]|].
    match goal with
    | |- effects (update_generator _ _ ?e ?w0) = _ /\ _ =>
        by destruct (Hfr e w0) as (-> & -> & -> & ->)
    end.
Qed.

Lemma stream_before_ready_fails_witness :
  let w := (load None Sample.options "init-1").2 in
  let w1 := (stream "tokens" VUndefined w).2 in
  let w2 := next 0 "stream-1" w1 in
  (exists e,
     generators w2 !! 0 =
       Some {| gen_fn := "tokens"; gen_payload := VUndefined; gen_state := Completed;
               observed := [Failed e] |} /\
     (message e = "Worker not initialized" \/ message e = "Worker not ready")) /\
  effects w2 = effects w /\
  generated w2 = generated w /\
  streamingRequests w2 = streamingRequests w /\
  promises w2 = promises w.
Proof.
  exact (stream_before_ready_fails "tokens" VUndefined "stream-1"
           (load None Sample.options "init-1").2 (or_intror eq_refl)).
Defined.

(** X14.  [terminate] settles no promise and lets no consumer go on, and once
    it has run every message that still arrives is ignored: the state never
    changes again under messages.  So the calls and the reads that were
    pending at [terminate] stay pending for ever; they are not rejected. *)
Theorem messages_after_terminate_are_ignored events msgs :
  let w0 := run events initial in
  let w := step EvTerminate w0 in
  promises w = promises w0 /\ generators w = generators w0 /\
  run (EvMessage <$> msgs) w = w.
Proof.
  intros w0 w.
  assert (quiet w0) as Hq0 by apply run_awaits.
  assert (promises (terminate w0) = promises w0 /\
          generators (terminate w0) = generators w0) as [Hp0 Hg0].
  { unfold terminate. by destruct (worker w0). }
  assert (w = terminate w0) as Hw0.
  { unfold w, step. cbn [task]. apply drain_quiet.
    intros g gen id request p queued Hg Hst. rewrite Hp0. rewrite Hg0 in Hg.
    by eapply Hq0. }
  split; [by rewrite Hw0|]. split; [by rewrite Hw0|].
  assert (w = run (events ++ [EvTerminate]) initial) as Hrun by (by rewrite run_app).
  assert (worker w = None) as Hw.
  { rewrite Hw0. unfold terminate. by destruct (worker w0) eqn:Hw. }
  pose proof (run_idle_ok (events ++ [EvTerminate]) initial initial_idle_ok) as Hidle.
  rewrite <- Hrun in Hidle.
  destruct (Hidle Hw) as (Hp & Hs & _).
  assert (quiet w) as Hq by (rewrite Hrun; apply run_awaits).
  assert (forall msg, step (EvMessage msg) w = w) as Hstep.
  { intros msg. unfold step. cbn [task].
    rewrite handleMessage_idle by done. by apply drain_quiet. }
  induction msgs as [|msg msgs IH]; [done|].
  rewrite fmap_cons, run_cons, Hstep. exact IH.
Qed.

(** X15.  The [error] event of the worker can only reject the promise of
    [init], which [load] awaits: it leaves the registries, [initialized] and
    the worker as they are and changes no other promise, so a call in flight
    is not settled by it; once that promise has settled it changes no promise
    at all. *)
Theorem worker_error_settles_no_call message w wk p :
  worker w = Some wk -> onerror wk = RejectPromise p ->
  let w' := step (EvWorkerError message) w in
  pendingRequests w' = pendingRequests w /\
  initialized w' = initialized w /\
  worker w' = worker w /\
  (forall q s, q <> p -> promises w !! q = Some s -> promises w' !! q = Some s) /\
  (promises w !! p = Some Pending ->
   promises w' !! p = Some (Rejected (Error ("Worker error: " +:+ message)))) /\
  (forall s, promises w !! p = Some s -> s <> Pending -> promises w' !! p = Some s).
Proof.
  intros Hw Hon. cbn zeta. unfold step. cbn [task]. unfold handleWorkerError.
  rewrite Hw, Hon.
  destruct (drain_frame (callReject (RejectPromise p)
                           (Error ("Worker error: " +:+ message)) w))
    as [Hdw Hdp Hdi _ _ _ _].
  rewrite Hdw, Hdp, Hdi. autorewrite with frame. split_and!; try done.
  - intros q s Hne Hq. apply drain_promise. unfold callReject.
    by rewrite settle_other.
  - intros Hp. apply drain_promise. unfold callReject. by apply settle_pending.
  - intros s Hp Hs. apply drain_promise. by apply callReject_keeps.
Qed.

Lemma worker_error_settles_no_call_witness :
  let w := run (Sample.loaded ++
                [EvCall "add" (VArr [VNum 1; VNum 2]) None "call-1"]) initial in
  let w' := step (EvWorkerError "out of memory") w in
  pendingRequests w' = pendingRequests w /\
  promises w' !! 1 = Some Pending /\
  promises w' !! 0 = Some (Fulfilled VUndefined).
Proof.
  destruct (worker_error_settles_no_call "out of memory"
              (run (Sample.loaded ++
                    [EvCall "add" (VArr [VNum 1; VNum 2]) None "call-1"]) initial)
              {| onerror := RejectPromise 0 |} 0 eq_refl eq_refl)
    as (H1 & _ & _ & H4 & _ & H6).
  split; [exact H1|]. split.
  - apply H4; [discriminate|reflexivity].
  - apply H6; [reflexivity|discriminate].
Defined.

(** X16.  When [generateId] gives to a second call the id of a call that is
    still pending, the entry of the first call is replaced: the answer with
    that id settles the promise of the second call, the promise of the first
    stays pending, and no entry is left for it. *)
Theorem second_call_with_same_id_takes_the_answer
    w0 fnA plA optA fnB plB optB X value :
  worker w0 <> None -> initialized w0 = true ->
  let a := call fnA plA optA X w0 in
  let b := call fnB plB optB X a.2 in
  let w3 := step (EvMessage (ResultMsg X value)) b.2 in
  exists pA pB,
    a.1 = inr pA /\ b.1 = inr pB /\
    promises w3 !! pB = Some (Fulfilled value) /\
    promises w3 !! pA = Some Pending /\
    pendingRequests w3 !! X = None.
Proof.
  intros Hw Hi a b w3.
  destruct (call_ready fnA plA optA X w0 Hw Hi) as (Ha1 & Hap & Hapd & Haw & Hai & _).
  fold a in Ha1, Hap, Hapd, Haw, Hai.
  assert (worker a.2 <> None) as Hw2 by (by rewrite Haw).
  destruct (call_ready fnB plB optB X a.2 Hw2 Hai) as (Hb1 & Hbp & Hbpd & _).
  fold b in Hb1, Hbp, Hbpd.
  set (pA := length (promises w0)) in *. set (pB := length (promises a.2)) in *.
  assert (pB = S pA) as HpB by (unfold pB; rewrite Hap, length_app; cbn; lia).
  assert (promises b.2 !! pA = Some Pending) as HA.
  { rewrite Hbp, Hap, <- app_assoc. by apply list_lookup_middle. }
  assert (promises b.2 !! pB = Some Pending) as HB.
  { rewrite Hbp. by apply list_lookup_middle. }
  assert (pendingRequests b.2 !! X = Some
            {| PendingRequest.resolve := ResolvePromise pB;
               PendingRequest.reject := RejectPromise pB |}) as HeB.
  { rewrite Hbpd. apply lookup_insert_eq. }
  destruct (handleMessage_result_resolves X value pB _ b.2 HeB HB) as (H3B & H3o & _ & H3p).
  fold w3 in H3B, H3o, H3p.
  exists pA, pB. split_and!; try done.
  - apply H3o; [lia|]. rewrite HA. f_equal.
  - rewrite H3p. apply lookup_delete_eq.
Qed.

Lemma second_call_with_same_id_takes_the_answer_witness :
  let w0 := run Sample.loaded initial in
  let a := call "add" (VArr [VNum 1; VNum 2]) None "same" w0 in
  let b := call "double" (VNum 7) None "same" a.2 in
  let w3 := step (EvMessage (ResultMsg "same" (VNum 3))) b.2 in
  exists pA pB,
    a.1 = inr pA /\ b.1 = inr pB /\
    promises w3 !! pB = Some (Fulfilled (VNum 3)) /\
    promises w3 !! pA = Some Pending /\
    pendingRequests w3 !! "same" = None.
Proof.
  apply (second_call_with_same_id_takes_the_answer (run Sample.loaded initial)
           "add" (VArr [VNum 1; VNum 2]) None "double" (VNum 7) None "same" (VNum 3)).
  - vm_compute. discriminate.
  - vm_compute. reflexivity.
Defined.

(** *** What reaches the consumer of a stream *)

(** After a task that left the generators alone and settled only [p], the
    promise that [g] awaits, the microtasks are the continuation of [g]. *)
Lemma drain_after_settling events g gen id request p queued w1 :
  let w := run events initial in
  generators w !! g = Some gen ->
  gen_state gen = AwaitingChunk id request p queued ->
  generators w1 = generators w ->
  length (promises w1) = length (promises w) ->
  (forall q, q <> p -> promises w1 !! q = promises w !! q) ->
  drain w1 = resume g w1.
Proof.
  intros w Hg Hst Hgen Hlen Hother.
  destruct (run_awaits events) as [Hq Hd]. fold w in Hq, Hd.
  apply drain_single.
  - eapply existing_same; [done|lia|by apply quiet_existing].
  - intros g' Hne gen' id' request' p' queued' Hg' Hst'. rewrite Hgen in Hg'.
    rewrite Hother; [by eapply Hq|]. intros ->. apply Hne. eapply Hd; eauto.
Qed.

Lemma error_completes_generator
    events g gen id request p queued code message details :
  let w := run events initial in
  generators w !! g = Some gen ->
  gen_state gen = AwaitingChunk id request p queued ->
  streamingRequests w !! id = Some request ->
  StreamingRequest.reject (deref request w) = RejectPromise p ->
  pendingRequests w !! id = None ->
  let w' := step (EvMessage (ErrorMsg id code message details)) w in
  generators w' !! g =
    Some (completed_with gen
            (Failed (createError code message details) :: replicate queued Finished)) /\
  streamingRequests w' !! id = None.
Proof.
  intros w Hg Hst Hreg Hrej Hpend. cbn zeta. unfold step. cbn [task].
  set (e := createError code message details).
  assert (handleMessage (ErrorMsg id code message details) w =
            streamingDelete id (callReject (RejectPromise p) e w)) as ->.
  { cbn. by rewrite Hpend, Hreg, Hrej. }
  assert (promises w !! p = Some Pending) as Hp.
  { destruct (run_awaits events) as [Hq _]. by eapply Hq. }
  set (w1 := streamingDelete id (callReject (RejectPromise p) e w)).
  assert (promises w1 !! p = Some (Rejected e)) as Hp1.
  { unfold w1, callReject. cbn. by apply settle_pending. }
  assert (generators w1 = generators w) as Hgen.
  { unfold w1. cbn. by autorewrite with frame. }
  rewrite (drain_after_settling events g gen id request p queued w1); try done.
  - unfold resume. rewrite Hgen, Hg, Hst, Hp1. split.
    + rewrite (update_generator_lookup g _ _ _ gen); [done|].
      change (generators w1 !! g = Some gen). by rewrite Hgen.
    + unfold update_generator.
      change (generators (streamingDelete id w1)) with (generators w1).
      rewrite Hgen, Hg. cbn. by rewrite lookup_delete_eq.
  - unfold w1. cbn. by autorewrite with frame.
  - intros q Hne. unfold w1, callReject. cbn. by rewrite settle_other.
Qed.

(** X17.  A consumer waits for the next chunk of a stream and an [error]
    message for the stream arrives: the read of the consumer fails with the
    error as received (the reads queued behind it are answered with the end
    of the stream), the generator is completed, and the entry of the stream
    is removed. *)
Theorem stream_error_reaches_the_consumer
    events g gen id request p queued code message details :
  let w := run events initial in
  generators w !! g = Some gen ->
  gen_state gen = AwaitingChunk id request p queued ->
  streamingRequests w !! id = Some request ->
  StreamingRequest.reject (deref request w) = RejectPromise p ->
  pendingRequests w !! id = None ->
  let w' := step (EvMessage (ErrorMsg id code message details)) w in
  generators w' !! g =
    Some (completed_with gen
            (Failed (createError code message details) :: replicate queued Finished)) /\
  streamingRequests w' !! id = None.
Proof. apply error_completes_generator. Qed.

Lemma stream_error_reaches_the_consumer_witness :
  let events := Sample.loaded ++
                [EvStream "tokens" VUndefined; EvNext 0 "stream-1"; EvNext 0 "unused"] in
  let w := run events initial in
  let w' := step (EvMessage (ErrorMsg "stream-1" UNKNOWN_ERROR
                               "Streaming not yet implemented" VUndefined)) w in
  generators w' !! 0 =
    Some {| gen_fn := "tokens"; gen_payload := VUndefined; gen_state := Completed;
            observed := [Failed (createError UNKNOWN_ERROR
                                   "Streaming not yet implemented" VUndefined);
                         Finished] |} /\
  streamingRequests w' !! "stream-1" = None.
Proof.
  exact (stream_error_reaches_the_consumer
           (Sample.loaded ++
            [EvStream "tokens" VUndefined; EvNext 0 "stream-1"; EvNext 0 "unused"])
           0
           {| gen_fn := "tokens"; gen_payload := VUndefined;
              gen_state := AwaitingChunk "stream-1" 0 1 1; observed := [] |}
           "stream-1" 0 1 1 UNKNOWN_ERROR "Streaming not yet implemented" VUndefined
           eq_refl eq_refl eq_refl eq_refl eq_refl).
Defined.

Lemma deref_in_range request w :
  StreamingRequest.resolve (deref request w) <> ResolveNoop ->
  request < length (heap w).
Proof.
  intros H. destruct (decide (request < length (heap w))) as [|Hge]; [done|].
  destruct H. unfold deref. by rewrite list_lookup_total_alt, lookup_ge_None_2 by lia.
Qed.

(** X18.  A consumer waits for the next chunk of a stream and [stream_close]
    arrives: its read, and every read queued behind it, is answered with the
    end of the stream, the generator is completed and the entry of the stream
    is removed. *)
Theorem stream_close_ends_the_stream events g gen id request p queued :
  let w := run events initial in
  generators w !! g = Some gen ->
  gen_state gen = AwaitingChunk id request p queued ->
  streamingRequests w !! id = Some request ->
  StreamingRequest.resolve (deref request w) = ResolvePromise p ->
  let w' := step (EvMessage (StreamCloseMsg id)) w in
  generators w' !! g =
    Some (completed_with gen (Finished :: replicate queued Finished)) /\
  streamingRequests w' !! id = None /\
  promises w' !! p = Some (Fulfilled (IteratorResult VUndefined true)).
Proof.
  intros w Hg Hst Hreg Hres. cbn zeta. unfold step. cbn [task].
  assert (request < length (heap w)) as Hlt.
  { apply deref_in_range. by rewrite Hres. }
  assert (StreamingRequest.queue (deref request w) = []) as Hqueue.
  { apply deref_queue_empty, stream_ok_run. }
  assert (deref request (markDone request w) =
            {| StreamingRequest.queue := [];
               StreamingRequest.resolve := ResolvePromise p;
               StreamingRequest.reject := StreamingRequest.reject (deref request w);
               StreamingRequest.done := true |}) as Hderef.
  { unfold markDone, deref at 1, assign. cbn.
    rewrite list_lookup_total_insert_eq by done. by rewrite Hqueue, Hres. }
  set (v := IteratorResult VUndefined true).
  assert (handleMessage (StreamCloseMsg id) w =
            streamingDelete id (callResolve (ResolvePromise p) v (markDone request w)))
    as ->.
  { cbn. rewrite Hreg. cbn. by rewrite Hderef. }
  assert (promises w !! p = Some Pending) as Hp.
  { destruct (run_awaits events) as [Hq _]. by eapply Hq. }
  set (w1 := streamingDelete id (callResolve (ResolvePromise p) v (markDone request w))).
  assert (promises w1 !! p = Some (Fulfilled v)) as Hp1.
  { unfold w1, callResolve. cbn. by apply settle_pending. }
  assert (generators w1 = generators w) as Hgen.
  { unfold w1. cbn. by autorewrite with frame. }
  assert (deref request w1 = deref request (markDone request w)) as Hd1.
  { unfold w1, deref. cbn. by autorewrite with frame. }
  rewrite (drain_after_settling events g gen id request p queued w1); try done.
  - unfold resume. rewrite Hgen, Hg, Hst, Hp1.
    rewrite stream_loop_eq. cbn zeta. rewrite Hd1, Hderef. cbn.
    split_and!.
    + rewrite (update_generator_lookup g _ _ _ gen); [done|].
      change (generators w1 !! g = Some gen). by rewrite Hgen.
    + unfold update_generator.
      change (generators (streamingDelete id w1)) with (generators w1).
      rewrite Hgen, Hg. cbn. by rewrite lookup_delete_eq.
    + unfold update_generator.
      change (generators (streamingDelete id w1)) with (generators w1).
      rewrite Hgen, Hg. exact Hp1.
  - unfold w1. cbn. by autorewrite with frame.
  - intros q Hne. unfold w1, callResolve. cbn. by rewrite settle_other.
Qed.

Lemma stream_close_ends_the_stream_witness :
  let events := Sample.loaded ++
                [EvStream "tokens" VUndefined; EvNext 0 "stream-1"; EvNext 0 "unused"] in
  let w := run events initial in
  let w' := step (EvMessage (StreamCloseMsg "stream-1")) w in
  generators w' !! 0 =
    Some {| gen_fn := "tokens"; gen_payload := VUndefined; gen_state := Completed;
            observed := [Finished; Finished] |} /\
  streamingRequests w' !! "stream-1" = None /\
  promises w' !! 1 = Some (Fulfilled (IteratorResult VUndefined true)).
Proof.
  exact (stream_close_ends_the_stream
           (Sample.loaded ++
            [EvStream "tokens" VUndefined; EvNext 0 "stream-1"; EvNext 0 "unused"])
           0
           {| gen_fn := "tokens"; gen_payload := VUndefined;
              gen_state := AwaitingChunk "stream-1" 0 1 1; observed := [] |}
           "stream-1" 0 1 1 eq_refl eq_refl eq_refl eq_refl).
Defined.
(** *** Opening a stream *)

Lemma stream_quiet fn payload w : quiet w -> quiet (stream fn payload w).2.
Proof.
  intros Hq g gen id request p queued Hg Hst. cbn in Hg |- *.
  apply lookup_app_Some in Hg as [Hg|[_ Hg]]; [by eapply Hq|].
  apply list_lookup_singleton_Some in Hg as [_ <-]. by cbn in Hst.
Qed.

Lemma next_opens_stream fn payload fresh w :
  quiet w -> worker w <> None -> initialized w = true ->
  let g := length (generators w) in
  let w2 := next g fresh (stream fn payload w).2 in
  quiet w2 /\
  generators w2 !! g =
    Some {| gen_fn := fn; gen_payload := payload;
            gen_state := AwaitingChunk fresh (length (heap w)) (length (promises w)) 0;
            observed := [] |} /\
  streamingRequests w2 !! fresh = Some (length (heap w)) /\
  StreamingRequest.reject (deref (length (heap w)) w2) = RejectPromise (length (promises w)) /\
  pendingRequests w2 = pendingRequests w /\
  worker w2 = worker w /\ initialized w2 = initialized w /\
  effects w2 = effects w ++
    [Registered StreamingRegistry fresh; Posted (StreamOpenMsg fresh fn payload) []].
Proof.
  intros Hq Hw Hi g.
  assert (generators (stream fn payload w).2 !! g =
            Some {| gen_fn := fn; gen_payload := payload; gen_state := SuspendedStart;
                    observed := [] |}) as Hg.
  { cbn. by apply list_lookup_middle. }
  cbn zeta. unfold next. rewrite Hg. cbn [gen_state gen_fn gen_payload].
  unfold stream_start. cbn [stream snd]. cbn [worker set_generators initialized].
  destruct (worker w) eqn:Hw'; [|done]. rewrite Hi. cbn [negb].
  cbn. rewrite stream_loop_eq. cbn. unfold deref. cbn.
  rewrite lookup_total_app_r, Nat.sub_diag by done. cbn.
  unfold update_generator. cbn. fold g.
  rewrite list_lookup_middle by done. cbn.
  assert (g < length (generators w ++
                      [{| gen_fn := fn; gen_payload := payload;
                          gen_state := SuspendedStart; observed := [] |}])) as Hlt.
  { rewrite length_app. cbn. unfold g. lia. }
  split_and!; try done.
  - intros g' gen id request p queued Hg' Hst. cbn in Hg' |- *.
    destruct (decide (g' = g)) as [->|Hne].
    + rewrite list_lookup_insert_eq in Hg' by done. injection Hg' as <-.
      cbn in Hst. injection Hst as _ _ <- _. by apply list_lookup_middle.
    + rewrite list_lookup_insert_ne in Hg' by done.
      apply lookup_app_Some in Hg' as [Hg'|[_ Hg']].
      * apply lookup_app_l_Some. by eapply Hq.
      * apply list_lookup_singleton_Some in Hg' as [_ <-]. by cbn in Hst.
  - by apply list_lookup_insert_eq.
  - apply lookup_insert_eq.
  - rewrite list_lookup_total_insert_eq; [done|]. rewrite length_app. cbn. lia.
  - by rewrite <- app_assoc.
Qed.

Lemma open_stream events fn payload fresh :
  let w := run events initial in
  worker w <> None -> initialized w = true ->
  let g := length (generators w) in
  let w2 := run [EvStream fn payload; EvNext g fresh] w in
  generators w2 !! g =
    Some {| gen_fn := fn; gen_payload := payload;
            gen_state := AwaitingChunk fresh (length (heap w)) (length (promises w)) 0;
            observed := [] |} /\
  streamingRequests w2 !! fresh = Some (length (heap w)) /\
  StreamingRequest.reject (deref (length (heap w)) w2) = RejectPromise (length (promises w)) /\
  pendingRequests w2 = pendingRequests w /\
  worker w2 = worker w /\ initialized w2 = initialized w /\
  effects w2 = effects w ++
    [Registered StreamingRegistry fresh; Posted (StreamOpenMsg fresh fn payload) []].
Proof.
  intros w Hw Hi g w2.
  destruct (run_awaits events) as [Hq _]. fold w in Hq.
  destruct (next_opens_stream fn payload fresh w Hq Hw Hi) as [Hq2 H].
  assert (w2 = next g fresh (stream fn payload w).2) as ->; [|exact H].
  unfold w2. cbn [run foldl]. unfold step at 2. cbn [task].
  rewrite (drain_quiet (stream fn payload w).2) by by apply stream_quiet.
  unfold step. cbn [task]. by apply drain_quiet.
Qed.

Lemma stream_error_frame w id code message details :
  pendingRequests w !! id = None ->
  let w' := step (EvMessage (ErrorMsg id code message details)) w in
  worker w' = worker w /\ initialized w' = initialized w.
Proof.
  intros Hp. cbn zeta. unfold step. cbn [task].
  destruct (drain_frame (handleMessage (ErrorMsg id code message details) w))
    as [-> _ -> _ _ _ _].
  split; [apply handleMessage_worker|]. cbn. rewrite Hp.
  destruct (streamingRequests w !! id); cbn; [|done]. apply callReject_initialized.
Qed.

End BridgeMore.

(** * Properties of the Controller and the Runtime together *)

Module SystemSpec.
Import System.

#[local] Arguments Bridge.stream_loop : simpl never.
#[local] Arguments Bridge.callResolve : simpl never.
#[local] Arguments Bridge.callReject : simpl never.
#[local] Arguments Bridge.settle : simpl never.
#[local] Arguments Bridge.shift : simpl never.
#[local] Arguments Bridge.step : simpl never.
#[local] Arguments Runtime.onmessage : simpl never.

Lemma added_app {A} (l x : list A) : added l (l ++ x) = x.
Proof. unfold added. by rewrite drop_app_length. Qed.

Lemma exec_cons P a actions s : exec P (a :: actions) s = exec P actions (act P a s).
Proof. done. Qed.

Lemma exec_app P actions1 actions2 s :
  exec P (actions1 ++ actions2) s = exec P actions2 (exec P actions1 s).
Proof. apply foldl_app. Qed.

Lemma act_ToWorker P s msg rest :
  to_worker s = msg :: rest ->
  act P ToWorker s =
    {| main := main s;
       context := (Runtime.onmessage P msg (context s)).2;
       to_worker := rest;
       to_main := to_main s ++
                  added (Runtime.outbox (context s))
                        (Runtime.outbox (Runtime.onmessage P msg (context s)).2) |}.
Proof. intros H. cbn. by rewrite H. Qed.

Lemma act_ToMain P s msg rest :
  to_main s = msg :: rest ->
  act P ToMain s =
    {| main := Bridge.step (Bridge.EvMessage msg) (main s);
       context := context s; to_worker := to_worker s; to_main := rest |}.
Proof. intros H. cbn. by rewrite H. Qed.

(** Rewriting the innermost delivery of a run. *)
Ltac deliver_to_main P msg rest :=
  match goal with
  | |- context [act P ToMain ?x] =>
      lazymatch x with
      | act _ _ _ => fail
      | _ => rewrite (act_ToMain P x msg rest) by reflexivity
      end
  end.

Ltac deliver_to_worker P msg rest :=
  match goal with
  | |- context [act P ToWorker ?x] =>
      lazymatch x with
      | act _ _ _ => fail
      | _ => rewrite (act_ToWorker P x msg rest) by reflexivity
      end
  end.

(** The Controller of a system is always in a state that the Controller can
    reach. *)
Lemma boot_reachable options fresh :
  main (boot options fresh) =
    Bridge.run [Bridge.EvInit None options fresh] Bridge.initial.
Proof. reflexivity. Qed.

Lemma act_reachable P a s :
  (exists events, main s = Bridge.run events Bridge.initial) ->
  exists events, main (act P a s) = Bridge.run events Bridge.initial.
Proof.
  intros [events H].
  assert (forall e, exists events', Bridge.step e (main s) = Bridge.run events' Bridge.initial)
    as Hstep.
  { intros e. exists (events ++ [e]). by rewrite BridgeSpec.run_app, <- H. }
  destruct a; cbn; try apply Hstep.
  - destruct (to_worker s); cbn; eauto.
  - destruct (to_main s); cbn; [eauto|apply Hstep].
Qed.

Lemma exec_reachable P actions s :
  (exists events, main s = Bridge.run events Bridge.initial) ->
  exists events, main (exec P actions s) = Bridge.run events Bridge.initial.
Proof.
  revert s. induction actions as [|a actions IH]; intros s H; [done|].
  rewrite exec_cons. by apply IH, act_reachable.
Qed.

(** X19.  [load] end to end, when the platform can fetch, compile and
    instantiate the module: once the worker has handled [init] and the
    Controller has handled [ready] and the [result], the promise of [init],
    which [load] awaits, is fulfilled, the Controller is initialized, the
    Runtime serves the instance, and nothing is pending or in flight. *)
Theorem load_round_trip P options fresh response buf m inst :
  Runtime.fetch P (LoadOptions.moduleUrl options) = Runtime.Returns response ->
  Runtime.ok response = true ->
  Runtime.arrayBuffer response = Runtime.Returns buf ->
  Runtime.compile P buf = Runtime.Returns m ->
  Runtime.instantiate P m
    (VObj [("env", if truthy (LoadOptions.init options)
                   then LoadOptions.init options else VObj [])])
    = Runtime.Returns inst ->
  let s := exec P [ToWorker; ToMain; ToMain] (boot options fresh) in
  Bridge.promises (main s) !! 0 = Some (Bridge.Fulfilled VUndefined) /\
  Bridge.pendingRequests (main s) = ∅ /\
  ready inst s.
Proof.
  intros Hf Hok Hb Hc Hi. cbn zeta.
  destruct (RuntimeSpec.handleInit_success P fresh (LoadOptions.moduleUrl options)
              (LoadOptions.init options) Runtime.startup response buf m inst
              Hf Hok Hb Hc Hi) as (Hini & Hinst & Hout).
  destruct (BridgeMore.load_handshake options fresh) as (_ & _ & _ & Hres & _).
  destruct (Hres (VObj [("initialized", VBool true)])) as (H1 & H2 & H3).
  rewrite !exec_cons.
  rewrite (act_ToWorker P _ (InitMsg fresh (LoadOptions.moduleUrl options)
                               (LoadOptions.init options)) []) by reflexivity.
  change (Runtime.onmessage P (InitMsg fresh (LoadOptions.moduleUrl options)
                                 (LoadOptions.init options)) (context (boot options fresh)))
    with (Runtime.handleInit P fresh (LoadOptions.moduleUrl options)
            (LoadOptions.init options) Runtime.startup).
  cbn [context boot to_main main].
  rewrite Hout, added_app.
  deliver_to_main P ReadyMsg [ResultMsg fresh (VObj [("initialized", VBool true)])].
  cbn [main to_main to_worker context].
  assert (Bridge.step (Bridge.EvMessage ReadyMsg) (Bridge.load None options fresh).2
          = (Bridge.load None options fresh).2) as -> by reflexivity.
  deliver_to_main P (ResultMsg fresh (VObj [("initialized", VBool true)]))
    (@nil WorkerResponse).
  cbn [exec foldl main to_main to_worker context]. cbn zeta in H1, H2, H3.
  split; [exact H2|]. split; [exact H3|].
  unfold ready. cbn [main to_main to_worker context]. split_and!; try done.
  unfold Bridge.step. rewrite (Bridge.gf_worker _ _ (BridgeSpec.drain_frame _)).
  cbn [Bridge.task]. by rewrite BridgeSpec.handleMessage_worker.
Qed.

Lemma load_round_trip_witness :
  let s := exec Scenario.online [ToWorker; ToMain; ToMain]
             (boot Sample.options "init-1") in
  Bridge.promises (main s) !! 0 = Some (Bridge.Fulfilled VUndefined) /\
  Bridge.pendingRequests (main s) = ∅ /\
  ready Sample.module_instance s.
Proof.
  exact (load_round_trip Scenario.online Sample.options "init-1"
           {| Runtime.ok := true; Runtime.status := 200; Runtime.statusText := "OK";
              Runtime.arrayBuffer := Runtime.Returns [0; 97; 115; 109]%Z |}
           [0; 97; 115; 109]%Z {| Runtime.code := [0; 97; 115; 109]%Z |}
           Sample.module_instance eq_refl eq_refl eq_refl eq_refl eq_refl).
Defined.

(** X20.  [load] end to end, when the server answers the fetch with a
    response that is not [ok]: the promise of [init], which [load] awaits, is
    rejected with the error [MODULE_FETCH_FAILED] that carries the status
    text, the status and the locator; neither side is initialized, nothing is
    pending or in flight, and the worker is still there: a failed [load] does
    not terminate it. *)
Theorem failed_fetch_round_trip P options fresh response :
  Runtime.fetch P (LoadOptions.moduleUrl options) = Runtime.Returns response ->
  Runtime.ok response = false ->
  let s := exec P [ToWorker; ToMain; ToMain] (boot options fresh) in
  Bridge.promises (main s) !! 0 =
    Some (Bridge.Rejected
            {| Bridge.name := "WasmWorkerError";
               Bridge.message := "Failed to fetch module: " +:+ Runtime.statusText response;
               Bridge.code := Some MODULE_FETCH_FAILED;
               Bridge.details :=
                 VObj [("status", VNum (Runtime.status response));
                       ("url", VStr (LoadOptions.moduleUrl options))] |}) /\
  Bridge.initialized (main s) = false /\
  Runtime.initialized (Runtime.state (context s)) = false /\
  Bridge.pendingRequests (main s) = ∅ /\
  Bridge.worker (main s) <> None /\
  to_worker s = [] /\ to_main s = [].
Proof.
  intros Hf Hok. cbn zeta.
  pose proof (RuntimeSpec.handleInit_response_not_ok P fresh (LoadOptions.moduleUrl options)
                (LoadOptions.init options) Runtime.startup response Hf Hok) as Hinit.
  destruct (BridgeMore.load_handshake options fresh) as (_ & _ & _ & _ & Herr).
  destruct (Herr MODULE_FETCH_FAILED
              ("Failed to fetch module: " +:+ Runtime.statusText response)
              (VObj [("status", VNum (Runtime.status response));
                     ("url", VStr (LoadOptions.moduleUrl options))]))
    as (H1 & H2 & H3 & H4).
  rewrite !exec_cons.
  deliver_to_worker P (InitMsg fresh (LoadOptions.moduleUrl options)
                         (LoadOptions.init options)) (@nil WorkerRequest).
  change (Runtime.onmessage P (InitMsg fresh (LoadOptions.moduleUrl options)
                                 (LoadOptions.init options)) (context (boot options fresh)))
    with (Runtime.handleInit P fresh (LoadOptions.moduleUrl options)
            (LoadOptions.init options) Runtime.startup).
  rewrite Hinit. cbn [context boot to_main main snd Runtime.posting Runtime.outbox].
  rewrite added_app.
  match goal with
  | |- context [ErrorMsg fresh MODULE_FETCH_FAILED ?m ?d] =>
      deliver_to_main P ReadyMsg [ErrorMsg fresh MODULE_FETCH_FAILED m d];
      cbn [main to_main to_worker context];
      assert (Bridge.step (Bridge.EvMessage ReadyMsg) (Bridge.load None options fresh).2
              = (Bridge.load None options fresh).2) as -> by reflexivity;
      deliver_to_main P (ErrorMsg fresh MODULE_FETCH_FAILED m d) (@nil WorkerResponse)
  end.
  cbn [exec foldl main to_main to_worker context Runtime.state]. cbn zeta in H1, H2, H3, H4.
  split_and!; try done.
Qed.

Lemma failed_fetch_round_trip_witness :
  let s := exec Scenario.missing [ToWorker; ToMain; ToMain]
             (boot Sample.options "init-1") in
  Bridge.promises (main s) !! 0 =
    Some (Bridge.Rejected
            {| Bridge.name := "WasmWorkerError";
               Bridge.message := "Failed to fetch module: Not Found";
               Bridge.code := Some MODULE_FETCH_FAILED;
               Bridge.details :=
                 VObj [("status", VNum 404);
                       ("url", VStr "/examples/rust-add/dist/module.wasm")] |}) /\
  Bridge.initialized (main s) = false /\
  Runtime.initialized (Runtime.state (context s)) = false /\
  Bridge.pendingRequests (main s) = ∅ /\
  Bridge.worker (main s) <> None /\
  to_worker s = [] /\ to_main s = [].
Proof.
  exact (failed_fetch_round_trip Scenario.missing Sample.options "init-1"
           {| Runtime.ok := false; Runtime.status := 404;
              Runtime.statusText := "Not Found";
              Runtime.arrayBuffer := Runtime.Returns [] |} eq_refl eq_refl).
Defined.

(** *** A call and its answer *)

Lemma posted_requests_app l1 l2 :
  posted_requests (l1 ++ l2) = posted_requests l1 ++ posted_requests l2.
Proof. unfold posted_requests. apply omap_app. Qed.







(** *** A stream and its answer *)

Lemma added_same {A} (l : list A) : added l l = [].
Proof. unfold added. apply drop_all. Qed.

Lemma exec_Stream_Next P fn payload fresh s events :
  main s = Bridge.run events Bridge.initial ->
  Bridge.worker (main s) <> None -> Bridge.initialized (main s) = true ->
  exec P [Stream fn payload; Next (length (Bridge.generators (main s))) fresh] s =
    {| main := Bridge.run [Bridge.EvStream fn payload;
                           Bridge.EvNext (length (Bridge.generators (main s))) fresh]
                 (main s);
       context := context s;
       to_worker := to_worker s ++ [StreamOpenMsg fresh fn payload];
       to_main := to_main s |}.
Proof.
  intros Hm Hw Hi. rewrite Hm in Hw, Hi.
  destruct (BridgeMore.open_stream events fn payload fresh Hw Hi)
    as (_ & _ & _ & _ & _ & _ & He).
  rewrite <- Hm in He. cbn zeta in He. cbn [Bridge.run foldl] in He.
  assert (Bridge.effects (Bridge.step (Bridge.EvStream fn payload) (main s))
          = Bridge.effects (main s)) as He1.
  { unfold Bridge.step. by rewrite (Bridge.gf_effects _ _ (BridgeSpec.drain_frame _)). }
  cbn [exec foldl act Bridge.run]. unfold user. cbn [main context to_worker to_main].
  f_equal. rewrite He, !He1, added_same, added_app. cbn. by rewrite app_nil_r.
Qed.

(** X22.  [stream] end to end.  When the Controller is loaded and nothing is
    in flight, a consumer that opens a stream and asks for its first element
    is answered, once the worker has handled [stream_open] and the
    Controller its answer, with the error [UNKNOWN_ERROR], Streaming not yet
    implemented: its [next()] is rejected, the generator is completed, the
    entry is removed from [streamingRequests], and the system is again
    ready. *)
Theorem stream_round_trip P options fresh0 actions inst fn payload fresh :
  let s := exec P actions (boot options fresh0) in
  ready inst s ->
  Bridge.pendingRequests (main s) !! fresh = None ->
  let g := length (Bridge.generators (main s)) in
  let s' := exec P [Stream fn payload; Next g fresh; ToWorker; ToMain] s in
  Bridge.generators (main s') !! g =
    Some {| Bridge.gen_fn := fn; Bridge.gen_payload := payload;
            Bridge.gen_state := Bridge.Completed;
            Bridge.observed :=
              [Bridge.Failed
                 {| Bridge.name := "WasmWorkerError";
                    Bridge.message := "Streaming not yet implemented";
                    Bridge.code := Some UNKNOWN_ERROR;
                    Bridge.details := VUndefined |}] |} /\
  Bridge.streamingRequests (main s') !! fresh = None /\
  ready inst s'.
Proof.
  intros s (Hw & Hi & Hri & Hrs & Htw & Htm) Hpend g.
  destruct (exec_reachable P actions (boot options fresh0)) as [events Hm].
  { eexists. apply boot_reachable. }
  fold s in Hm. cbn zeta.
  change [Stream fn payload; Next g fresh; ToWorker; ToMain]
    with ([Stream fn payload; Next g fresh] ++ [ToWorker; ToMain]).
  rewrite exec_app. unfold g.
  rewrite (exec_Stream_Next P fn payload fresh s events Hm Hw Hi).
  rewrite Htw, Htm, !exec_cons.
  deliver_to_worker P (StreamOpenMsg fresh fn payload) (@nil WorkerRequest).
  cbn [main context to_main to_worker].
  change (Runtime.onmessage P (StreamOpenMsg fresh fn payload) (context s))
    with (Runtime.handleStreamOpen fresh fn payload (context s)).
  change (Runtime.outbox (Runtime.handleStreamOpen fresh fn payload (context s)).2)
    with (Runtime.outbox (context s) ++
          [ErrorMsg fresh UNKNOWN_ERROR "Streaming not yet implemented" VUndefined]).
  rewrite added_app.
  deliver_to_main P (ErrorMsg fresh UNKNOWN_ERROR "Streaming not yet implemented" VUndefined)
    (@nil WorkerResponse).
  cbn [exec foldl main context to_main to_worker].
  pose proof Hw as Hw0. pose proof Hi as Hi0. rewrite Hm in Hw0, Hi0.
  destruct (BridgeMore.open_stream events fn payload fresh Hw0 Hi0)
    as (Hg & Hreg & Hrej & Hpd & Hwk & Hini & _).
  cbn zeta in Hg, Hreg, Hrej, Hpd, Hwk, Hini.
  rewrite <- BridgeSpec.run_app in Hg, Hreg, Hrej, Hpd, Hwk, Hini.
  rewrite Hm. rewrite <- BridgeSpec.run_app.
  destruct (BridgeMore.error_completes_generator
              (events ++ [Bridge.EvStream fn payload;
                          Bridge.EvNext (length (Bridge.generators
                                                   (Bridge.run events Bridge.initial))) fresh])
              _ _ fresh _ _ 0 UNKNOWN_ERROR "Streaming not yet implemented" VUndefined
              Hg eq_refl Hreg Hrej) as (H1 & H2).
  { rewrite Hpd, <- Hm. exact Hpend. }
  split; [exact H1|]. split; [exact H2|].
  destruct (BridgeMore.stream_error_frame
              (Bridge.run (events ++ [Bridge.EvStream fn payload;
                                      Bridge.EvNext (length (Bridge.generators
                                                               (Bridge.run events Bridge.initial)))
                                        fresh]) Bridge.initial)
              fresh UNKNOWN_ERROR "Streaming not yet implemented" VUndefined) as (H3 & H4).
  { rewrite Hpd, <- Hm. exact Hpend. }
  unfold ready. cbn [main context to_main to_worker Runtime.state].
  rewrite H3, H4, Hwk, Hini, <- Hm. by split_and!.
Qed.

Lemma stream_round_trip_witness :
  let s := exec Scenario.online [ToWorker; ToMain; ToMain]
             (boot Sample.options "init-1") in
  let s' := exec Scenario.online
              [Stream "tokens" VUndefined; Next 0 "stream-1"; ToWorker; ToMain] s in
  ready Sample.module_instance s /\
  Bridge.pendingRequests (main s) !! "stream-1" = None /\
  Bridge.generators (main s') !! 0 =
    Some {| Bridge.gen_fn := "tokens"; Bridge.gen_payload := VUndefined;
            Bridge.gen_state := Bridge.Completed;
            Bridge.observed :=
              [Bridge.Failed
                 {| Bridge.name := "WasmWorkerError";
                    Bridge.message := "Streaming not yet implemented";
                    Bridge.code := Some UNKNOWN_ERROR;
                    Bridge.details := VUndefined |}] |}.
Proof.
  cbn zeta.
  assert (ready Sample.module_instance
            (exec Scenario.online [ToWorker; ToMain; ToMain]
               (boot Sample.options "init-1"))) as H1 by (by vm_compute).
  assert (Bridge.pendingRequests
            (main (exec Scenario.online [ToWorker; ToMain; ToMain]
                     (boot Sample.options "init-1"))) !! "stream-1" = None) as H2
    by (by vm_compute).
  split; [exact H1|]. split; [exact H2|].
  exact (proj1 (stream_round_trip Scenario.online Sample.options "init-1"
                  [ToWorker; ToMain; ToMain] Sample.module_instance
                  "tokens" VUndefined "stream-1" H1 H2)).
Defined.

(** *** Two calls in flight *)




End SystemSpec.
